(** * Multivariate-normal density evaluators and the parallel vector sum

    A shallow embedding of the Rcpp gallery articles

    - "Faster Multivariate Normal densities with RcppArmadillo and OpenMP"
      ([dmvnrm_arma], [dmvnrm_arma_mc], [Mahalanobis], [dmvnorm_arma]), and
    - "Summing a Vector in Parallel with RcppParallel"
      ([vectorSum], [Sum], [parallelVectorSum], [armasum2]).

    Conventions of the embedding.

    - A C++ [double] of the density code is a real number of [R]: Rocq's
      binary64 floats have neither [log] nor [exp].  Every integer
      computation of the source ([xdim/2] above all) is kept on [Z] with
      C++'s truncating division, so what is integer arithmetic in the
      source is integer arithmetic here.  The vector sum is stated over an
      abstract carrier and instantiated both at [R] and at the kernel's
      binary64 floats.
    - A C++ exception is a value of [exn]; a function that can throw
      returns an [outcome].  An exception that leaves an OpenMP structured
      block ends the process, which is the third outcome, [Terminates].
    - R hands matrices over with 32-bit dimensions, so the conversions
      [int n = x.n_rows] and [int xdim = x.n_cols] are exact.
    - One execution of an OpenMP loop is given by its schedule, the
      iterations in their order of completion; the thread count is a field
      of the runtime's state, which a call takes and hands back.
    - Armadillo's LAPACK-backed routines ([chol], the triangular [inv]) are
      written out in exact arithmetic; the general inverse and the
      symmetric eigenvalue solver, used by the Mahalanobis form only, are
      parameters of that part of the development.
    - Which covariance matrices make [chol] fail depends on the rounding
      of the pivots.  That question is settled on a second reading of the
      serial evaluator, [dmvnrm_arma64], in binary64 with [log] and [exp]
      as parameters; the reading over [R] states values, for covariance
      matrices that are positive definite. *)

From Stdlib Require Import Reals Lra Lia ZArith List String.
From Stdlib Require Import FunctionalExtensionality.
From Stdlib Require PrimFloat FloatAxioms FloatOps SpecFloat Uint63.
From stdpp Require Import base list.
Import ListNotations.

Set Default Proof Using "Type".

(** ** Exceptions and outcomes *)

Inductive exn : Type :=
| runtime_error (what : string)
| logic_error (what : string).

Inductive outcome (A : Type) : Type :=
| Returns (a : A)
| Throws (e : exn)
| Terminates.

Arguments Returns {A} a.
Arguments Throws {A} e.
Arguments Terminates {A}.

#[global] Instance outcome_ret : MRet outcome := fun A a => Returns a.

#[global] Instance outcome_bind : MBind outcome := fun A B k m =>
  match m with
  | Returns a => k a
  | Throws e => Throws e
  | Terminates => Terminates
  end.

#[global] Instance outcome_fmap : FMap outcome := fun A B f m =>
  match m with
  | Returns a => Returns (f a)
  | Throws e => Throws e
  | Terminates => Terminates
  end.

(** ** Dense vectors and matrices (Armadillo) *)

Module Arma.
Local Open Scope R_scope.

(** [arma::vec] and [arma::rowvec]: the elements in order. *)
Definition vec : Type := list R.

(** [arma::mat]: the two dimensions and the element access [A(i,j)]. *)
Record mat : Type := mkMat {
  n_rows : nat;
  n_cols : nat;
  at_ : nat -> nat -> R
}.

(** The matrix written row by row, for literals such as [[1,2],[2,1]]. *)
Definition mat_of_rows (rows : list (list R)) : mat :=
  mkMat (length rows) (length (hd [] rows))
        (fun i j => nth j (nth i rows []) 0).

(** [sum_{i < n} f i], the first term split off first. *)
Fixpoint Rsum (n : nat) (f : nat -> R) : R :=
  match n with
  | O => 0
  | S n' => f O + Rsum n' (fun i => f (S i))
  end.

(** [arma::sum] of a vector and [arma::accu]. *)
Definition sum (v : vec) : R := fold_right Rplus 0 v.

(** [x.row(i)] *)
Definition row (A : mat) (i : nat) : vec :=
  map (fun j => at_ A i j) (seq 0 (n_cols A)).

(** [A.diag()] *)
Definition diag (A : mat) : vec :=
  map (fun i => at_ A i i) (seq 0 (Nat.min (n_rows A) (n_cols A))).

(** [arma::trans] *)
Definition trans (A : mat) : mat :=
  mkMat (n_cols A) (n_rows A) (fun i j => at_ A j i).

(** [trimatu]: the upper triangle, zeros below the diagonal. *)
Definition trimatu (A : mat) : mat :=
  mkMat (n_rows A) (n_cols A)
        (fun i j => if (j <? i)%nat then 0 else at_ A i j).

(** [a - b] on vectors: Armadillo checks the sizes. *)
Definition vec_minus (a b : vec) : outcome vec :=
  if (length a =? length b)%nat
  then Returns (zip_with Rminus a b)
  else Throws (logic_error "subtraction: incompatible matrix dimensions").

(** [z % z], the element-wise product. *)
Definition schur (a b : vec) : vec := zip_with Rmult a b.

(** The dot product of the first [n] entries of a row [r] with [v]. *)
Definition dot (n : nat) (r : nat -> R) (v : vec) : R :=
  Rsum n (fun j => r j * nth j v 0).

(** [A * trans(d)] for a row vector [d]: Armadillo checks the sizes. *)
Definition mat_vec (A : mat) (v : vec) : outcome vec :=
  if (n_cols A =? length v)%nat
  then Returns (map (fun i => dot (n_cols A) (at_ A i) v) (seq 0 (n_rows A)))
  else Throws (logic_error "matrix multiplication: incompatible matrix dimensions").

(** *** Cholesky factorisation

    [arma::chol(X)] returns the upper-triangular [U] with positive
    diagonal and [trans(U) * U = X], reading the upper triangle of [X]
    only, and throws [std::runtime_error] when a pivot is not positive
    (LAPACK's [dpotrf], [uplo = 'U']).  In exact arithmetic the factor is
    unique; it is computed here one row at a time, each step passing the
    Schur complement on to the next. *)
Definition chol_failed : exn := runtime_error "chol(): decomposition failed".

Fixpoint chol_rec (k : nat) (A : nat -> nat -> R) : outcome (nat -> nat -> R) :=
  match k with
  | O => Returns (fun _ _ => 0)
  | S k' =>
      if Rlt_dec 0 (A O O) then
        let r := sqrt (A O O) in
        U' ← chol_rec k' (fun i j => A (S i) (S j) - A O (S i) / r * (A O (S j) / r));
        Returns (fun i j =>
                   match i, j with
                   | O, O => r
                   | O, S j' => A O (S j') / r
                   | S _, O => 0
                   | S i', S j' => U' i' j'
                   end)
      else Throws chol_failed
  end.

Definition chol (X : mat) : outcome mat :=
  if (n_rows X =? n_cols X)%nat then
    U ← chol_rec (n_rows X) (at_ X);
    Returns (mkMat (n_rows X) (n_cols X) U)
  else Throws (logic_error "chol(): given matrix must be square sized").

(** *** Inverse of an upper-triangular matrix

    [arma::inv(trimatu(X))] takes the triangular path (LAPACK's [dtrtri]):
    back substitution, failing on a zero diagonal entry. *)
Fixpoint inv_upper_rec (k : nat) (U : nat -> nat -> R) : outcome (nat -> nat -> R) :=
  match k with
  | O => Returns (fun _ _ => 0)
  | S k' =>
      if Req_dec_T (U O O) 0 then Throws (runtime_error "inv(): matrix is singular")
      else
        V' ← inv_upper_rec k' (fun i j => U (S i) (S j));
        Returns (fun i j =>
                   match i, j with
                   | O, O => / U O O
                   | O, S j' => - Rsum k' (fun p => U O (S p) * V' p j') / U O O
                   | S _, O => 0
                   | S i', S j' => V' i' j'
                   end)
  end.

Definition inv_upper (U : mat) : outcome mat :=
  if (n_rows U =? n_cols U)%nat then
    V ← inv_upper_rec (n_rows U) (at_ U);
    Returns (mkMat (n_rows U) (n_cols U) V)
  else Throws (logic_error "inv(): given matrix must be square sized").

End Arma.

Export Arma.

(** ** The serial evaluator, [dmvnrm_arma] *)

Section Evaluator.
Local Open Scope R_scope.

(** [for (int i = 0; i < n; i++) body]: the first exception ends the loop. *)
Fixpoint for_loop {St : Type} (idx : list nat) (body : nat -> St -> outcome St)
    (st : St) : outcome St :=
  match idx with
  | [] => Returns st
  | i :: rest => st' ← body i st; for_loop rest body st'
  end.

(** [double rootisum = arma::sum(log(rooti.diag()));] *)
Definition rootisum (rooti : mat) : R := Arma.sum (map ln (diag rooti)).

(** [double constants = -(xdim/2) * log(2 * M_PI);] with [int xdim]: the
    quotient is C++'s integer division, which truncates. *)
Definition constants (xdim : Z) : R := IZR (- (xdim ÷ 2)) * ln (2 * PI).

(** [arma::trans(arma::inv(trimatu(arma::chol(sigma))))] *)
Definition whitening (sigma : mat) : outcome mat :=
  U ← chol sigma;
  V ← inv_upper (trimatu U);
  Returns (trans V).

(** The body of the loop over the rows:
    [z = rooti * trans(x.row(i) - mean);
     out(i) = constants - 0.5 * sum(z % z) + rootisum]. *)
Definition row_body (x : mat) (mean : vec) (rooti : mat) (cst rsum : R)
    (i : nat) (out : vec) : outcome vec :=
  d ← vec_minus (row x i) mean;
  z ← mat_vec rooti d;
  Returns (<[ i := cst - 0.5 * Arma.sum (schur z z) + rsum ]> out).

(** [if (logd == false) out = exp(out);] *)
Definition finish (logd : bool) (out : vec) : vec :=
  if logd then out else map exp out.

(** [arma::vec out(n)] has [n] entries, zero here; the loop overwrites
    every one of them.  [arma::mat rooti(n, xdim)] is resized by the
    assignment that follows it. *)
Definition dmvnrm_arma (x : mat) (mean : vec) (sigma : mat) (logd : bool)
  : outcome vec :=
  let n := n_rows x in
  let xdim := Z.of_nat (n_cols x) in
  let out := replicate n 0 in
  rooti ← whitening sigma;
  let rsum := rootisum rooti in
  let cst := constants xdim in
  out ← for_loop (seq 0 n) (row_body x mean rooti cst rsum) out;
  Returns (finish logd out).

End Evaluator.

(** ** The OpenMP evaluator, [dmvnrm_arma_mc] *)

Section OpenMP.
Local Open Scope R_scope.

(** The runtime's process-wide setting read by every later parallel
    region: the [nthreads-var] control variable. *)
Record omp_runtime : Type := { nthreads_var : Z }.

(** [omp_set_num_threads(n)] overwrites the setting.  OpenMP leaves a
    non-positive argument to the implementation; GNU libgomp and LLVM
    libomp both take it as 1. *)
Definition omp_set_num_threads (n : Z) (rt : omp_runtime) : omp_runtime :=
  {| nthreads_var := if (0 <? n)%Z then n else 1%Z |}.

(** One execution of a parallel loop: the iterations in the order in
    which they complete, each with the thread that ran it.  Iterations of
    the loops modelled here write one element of [out] each and share
    nothing else that is written, so an execution is determined by this
    order. *)
Definition schedule : Type := list (nat * nat).

(** Every thread belongs to the team and every iteration of [0, n) is run
    exactly once; static and dynamic partitioning differ in which valid
    schedule is produced. *)
Definition valid_schedule (team : Z) (n : nat) (s : schedule) : Prop :=
  Forall (fun ev => (Z.of_nat (fst ev) < team)%Z) s /\
  Permutation (map snd s) (seq 0 n).

(** [#pragma omp parallel for] over the iterations of [s]: an exception
    escaping the block is not propagated, the process is terminated. *)
Fixpoint omp_parallel_for (s : schedule) (body : nat -> vec -> outcome vec)
    (out : vec) : outcome vec :=
  match s with
  | [] => Returns out
  | (_, i) :: rest =>
      match body i out with
      | Returns out' => omp_parallel_for rest body out'
      | _ => Terminates
      end
  end.

Definition dmvnrm_arma_mc (s : schedule) (x : mat) (mean : vec) (sigma : mat)
    (logd : bool) (cores : Z) (rt : omp_runtime) : outcome vec * omp_runtime :=
  let rt' := omp_set_num_threads cores rt in
  let n := n_rows x in
  let xdim := Z.of_nat (n_cols x) in
  let out := replicate n 0 in
  (rooti ← whitening sigma;
   let rsum := rootisum rooti in
   let cst := constants xdim in
   out ← omp_parallel_for s (row_body x mean rooti cst rsum) out;
   Returns (finish logd out),
   rt').

(** [double armasum(vec const& x)] *)
Definition armasum (x : vec) : R := Arma.sum x.

(** The loop of [armasum2] has no reduction clause: [res += x(k)] is a
    load of the shared [res] and, later, a store of the sum, and the
    loads and stores of different iterations interleave. *)
Inductive access : Type :=
| LoadRes (k : nat)
| StoreRes (k : nat).

Fixpoint racy_loop (tr : list access) (x : vec) (res : R) (reg : nat -> R) : R :=
  match tr with
  | [] => res
  | LoadRes k :: tr' =>
      racy_loop tr' x res (fun k' => if (k' =? k)%nat then res else reg k')
  | StoreRes k :: tr' => racy_loop tr' x (reg k + nth k x 0) reg
  end.

(** [double armasum2(vec const& x, int cores)], on one interleaving. *)
Definition armasum2 (tr : list access) (x : vec) (cores : Z) (rt : omp_runtime)
  : R * omp_runtime :=
  let res := 0 in
  let rt' := omp_set_num_threads cores rt in
  (racy_loop tr x res (fun _ => 0), rt').

End OpenMP.

(** ** The Mahalanobis form, [dmvnorm_arma] *)

Section MahalanobisForm.
Local Open Scope R_scope.

(** [cov.i()], the general inverse, and [arma::eig_sym], the eigenvalues
    of a symmetric matrix in ascending order: LAPACK routines outside the
    repository, left open here. *)
Variable inv : mat -> outcome mat.
Variable eig_sym : mat -> outcome vec.

(** [A * B] *)
Definition mat_mul (A B : mat) : outcome mat :=
  if (n_cols A =? n_rows B)%nat
  then Returns (mkMat (n_rows A) (n_cols B)
                  (fun i j => Rsum (n_cols A) (fun p => at_ A i p * at_ B p j)))
  else Throws (logic_error "matrix multiplication: incompatible matrix dimensions").

(** [A % B] on matrices *)
Definition schur_mat (A B : mat) : outcome mat :=
  if ((n_rows A =? n_rows B) && (n_cols A =? n_cols B))%nat
  then Returns (mkMat (n_rows A) (n_cols A) (fun i j => at_ A i j * at_ B i j))
  else Throws (logic_error "element-wise multiplication: incompatible matrix dimensions").

(** [sum(A, 1)]: the sum of each row. *)
Definition row_sums (A : mat) : vec :=
  map (fun i => Rsum (n_cols A) (at_ A i)) (seq 0 (n_rows A)).

(** [x_cen.row(i) = v] *)
Definition set_row (A : mat) (i : nat) (v : vec) : mat :=
  mkMat (n_rows A) (n_cols A)
        (fun i' j => if (i' =? i)%nat then nth j v 0 else at_ A i' j).

Definition Mahalanobis (x : mat) (center : vec) (cov : mat) : outcome vec :=
  let n := n_rows x in
  let x_cen := mkMat (n_rows x) (n_cols x) (fun _ _ => 0) in
  x_cen ← for_loop (seq 0 n)
             (fun i x_cen => d ← vec_minus (row x i) center;
                             Returns (set_row x_cen i d)) x_cen;
  cov_i ← inv cov;
  p ← mat_mul x_cen cov_i;
  q ← schur_mat p x_cen;
  Returns (row_sums q).

Definition dmvnorm_arma (x : mat) (mean : vec) (sigma : mat) (log : bool)
  : outcome vec :=
  distval ← Mahalanobis x mean sigma;
  ev ← eig_sym sigma;
  let logdet := Arma.sum (map ln ev) in
  let log2pi := ln (2 * PI) in
  let logretval :=
    map (fun d => - ((INR (n_cols x) * log2pi + logdet + d) / 2)) distval in
  Returns (if log then logretval else map exp logretval).

End MahalanobisForm.

(** ** The vector sum: [vectorSum], [Sum], [parallelVectorSum] *)

(** The element type of the summed vector with its [0.0] and [+]. *)
Class Scalar (A : Type) : Type := { zero : A; add : A -> A -> A }.

(** The exact reading of [double]. *)
#[global] Instance Scalar_R : Scalar R := {| zero := 0%R; add := Rplus |}.

(** IEEE 754 binary64, as the processor computes it. *)
#[global] Instance Scalar_float : Scalar PrimFloat.float :=
  {| zero := PrimFloat.zero; add := PrimFloat.add |}.

Section SumWorker.
Context {A : Type} `{Scalar A}.

(** [std::accumulate(first, last, init)]: a fold from the left. *)
Definition accumulate (range : list A) (init : A) : A := fold_left add range init.

(** [double vectorSum(NumericVector x)] *)
Definition vectorSum (x : list A) : A := accumulate x zero.

(** [struct Sum : public Worker] *)
Record Sum : Type := mkSum { input : list A; value : A }.

(** [Sum(const NumericVector input) : input(input), value(0) {}] *)
Definition Sum_new (x : list A) : Sum := mkSum x zero.

(** [Sum(const Sum& sum, Split) : input(sum.input), value(0) {}] *)
Definition Sum_split (sum : Sum) : Sum := mkSum (input sum) zero.

(** The elements [input.begin() + b] up to [input.begin() + e]. *)
Definition range_of (x : list A) (b e : nat) : list A := take (e - b) (drop b x).

(** [void operator()(std::size_t begin, std::size_t end)] *)
Definition Sum_call (w : Sum) (b e : nat) : Sum :=
  mkSum (input w) (add (value w) (accumulate (range_of (input w) b e) zero)).

(** [void join(const Sum& rhs)] *)
Definition join (w rhs : Sum) : Sum := mkSum (input w) (add (value w) (value rhs)).

(** What [parallelReduce] does with a worker, as RcppParallel documents
    it: the worker is called on a range, or it handles one part of the
    range and then the next, or a second worker is split off for the right
    part, both run, and the second is joined into the first. *)
Inductive plan : Type :=
| Run (b e : nat)
| Then (p q : plan)
| Fork (p q : plan).

(** The ranges at the leaves of [p], left to right, tile [b, e). *)
Fixpoint covers (p : plan) (b e : nat) : Prop :=
  match p with
  | Run b' e' => b' = b /\ e' = e /\ b <= e
  | Then p q | Fork p q => exists m, covers p b m /\ covers q m e
  end.

(** The number of [Sum] instances a plan uses. *)
Fixpoint workers (p : plan) : nat :=
  match p with
  | Run _ _ => 1
  | Then p q => Nat.max (workers p) (workers q)
  | Fork p q => workers p + workers q
  end.

Fixpoint parallelReduce (p : plan) (w : Sum) : Sum :=
  match p with
  | Run b e => Sum_call w b e
  | Then p q => parallelReduce q (parallelReduce p w)
  | Fork p q =>
      let rhs := Sum_split w in
      join (parallelReduce p w) (parallelReduce q rhs)
  end.

(** [double parallelVectorSum(NumericVector x)]: the plan is the
    scheduler's choice. *)
Definition parallelVectorSum (p : plan) (x : list A) : A :=
  let sum := Sum_new x in
  value (parallelReduce p sum).

End SumWorker.

Arguments Sum A : clear implicits.

(** ** Vocabulary of the statements *)

Section Vocabulary.
Local Open Scope R_scope.

(** Agreement of two values within a relative tolerance. *)
Definition agree_within (tol a b : R) : Prop :=
  Rabs (a - b) <= tol * Rmax (Rabs a) (Rabs b).

(** The sizes of a call agree: [x] is n by k, [mean] has k entries and
    [sigma] is k by k. *)
Definition valid_dims (x : mat) (mean : vec) (sigma : mat) : Prop :=
  n_cols x = length mean /\ n_rows sigma = n_cols x /\ n_cols sigma = n_cols x.

(** Symmetry of the leading [k] by [k] block, and of a matrix. *)
Definition sym_fun (k : nat) (A : nat -> nat -> R) : Prop :=
  forall i j, (i < k)%nat -> (j < k)%nat -> A i j = A j i.

Definition symmetric (A : mat) : Prop := sym_fun (n_rows A) (at_ A).

(** The quadratic form [v^T A v] over the first [k] coordinates. *)
Definition quad_form (k : nat) (A : nat -> nat -> R) (v : nat -> R) : R :=
  Rsum k (fun i => Rsum k (fun j => v i * A i j * v j)).

Definition pos_def_fun (k : nat) (A : nat -> nat -> R) : Prop :=
  forall v : nat -> R,
    (exists i, (i < k)%nat /\ v i <> 0) -> 0 < quad_form k A v.

(** A matrix is positive definite when [v^T A v > 0] for every [v <> 0]. *)
Definition positive_definite (A : mat) : Prop :=
  n_rows A = n_cols A /\ pos_def_fun (n_rows A) (at_ A).

(** The two LAPACK routines on a diagonal matrix: the inverse takes the
    reciprocals of the diagonal and the eigenvalues are the diagonal (for
    a 1 by 1 matrix that is all there is to them). *)
Definition inv_diagonal (A : mat) : outcome mat :=
  Returns (mkMat (n_rows A) (n_cols A)
             (fun i j => if (i =? j)%nat then / at_ A i i else 0)).

Definition eig_sym_diagonal (A : mat) : outcome vec := Returns (diag A).

(** The element the loop writes at index [i]. *)
Definition log_density (x : mat) (mean : vec) (rooti : mat) (cst rsum : R)
    (i : nat) : R :=
  let d := zip_with Rminus (row x i) mean in
  let z := map (fun r => dot (n_cols rooti) (at_ rooti r) d) (seq 0 (n_rows rooti)) in
  cst - 0.5 * Arma.sum (schur z z) + rsum.

(** The writes [out(i) = f i] for the indices of [l], in that order. *)
Fixpoint write_all (f : nat -> R) (l : list nat) (out : vec) : vec :=
  match l with
  | [] => out
  | i :: l' => write_all f l' (<[ i := f i ]> out)
  end.

End Vocabulary.

(** The sum of the elements of a list, each taken once. *)
Definition total {A : Type} `{Scalar A} (l : list A) : A := fold_right add zero l.

(** The binary64 value of a natural number. *)
Definition F (n : nat) : PrimFloat.float :=
  PrimFloat.of_uint63 (Uint63.of_Z (Z.of_nat n)).

(** Additions of two naturals with sum at most [n] are exact in binary64. *)
Definition add_exact_upto (n : nat) : bool :=
  forallb (fun i =>
    forallb (fun j =>
      if (i + j <=? n)%nat
      then PrimFloat.Leibniz.eqb (PrimFloat.add (F i) (F j)) (F (i + j))
      else true) (seq 0 (S n))) (seq 0 (S n)).

(** A plan of four workers for eight elements, two to each. *)
Definition four_workers : plan :=
  Fork (Fork (Run 0 2) (Run 2 4)) (Fork (Run 4 6) (Run 6 8)).

(** ** The OpenMP variants of the Mahalanobis form *)

Section MahalanobisOpenMP.
Local Open Scope R_scope.

Variable inv : mat -> outcome mat.
Variable eig_sym : mat -> outcome vec.

(** [#pragma omp parallel for] over any loop state: as
    [omp_parallel_for], an exception that leaves the block ends the
    process. *)
Fixpoint omp_for {St : Type} (s : schedule) (body : nat -> St -> outcome St)
    (st : St) : outcome St :=
  match s with
  | [] => Returns st
  | (_, i) :: rest =>
      match body i st with
      | Returns st' => omp_for rest body st'
      | _ => Terminates
      end
  end.

(** [x_cen.row(i) = x.row(i) - center;] *)
Definition center_row (x : mat) (center : vec) (i : nat) (x_cen : mat)
  : outcome mat :=
  d ← vec_minus (row x i) center;
  Returns (set_row x_cen i d).

Definition Mahalanobis_mc (s : schedule) (x : mat) (center : vec) (cov : mat)
    (cores : Z) (rt : omp_runtime) : outcome vec * omp_runtime :=
  let rt' := omp_set_num_threads cores rt in
  let n := n_rows x in
  let x_cen := mkMat (n_rows x) (n_cols x) (fun _ _ => 0) in
  (x_cen ← omp_for s (center_row x center) x_cen;
   cov_i ← inv cov;
   p ← mat_mul x_cen cov_i;
   q ← schur_mat p x_cen;
   Returns (row_sums q),
   rt').

Definition dmvnorm_arma_mc (s : schedule) (x : mat) (mean : vec) (sigma : mat)
    (log : bool) (cores : Z) (rt : omp_runtime) : outcome vec * omp_runtime :=
  let (called, rt') := Mahalanobis_mc s x mean sigma cores rt in
  (distval ← called;
   ev ← eig_sym sigma;
   let logdet := Arma.sum (map ln ev) in
   let log2pi := ln (2 * PI) in
   let logretval :=
     map (fun d => - ((INR (n_cols x) * log2pi + logdet + d) / 2)) distval in
   Returns (if log then logretval else map exp logretval),
   rt').

End MahalanobisOpenMP.

(** ** Vocabulary of the further statements *)

Section FurtherVocabulary.
Local Open Scope R_scope.

(** [W] is the inverse of [A], both [k] by [k]: [A W = I] and [W A = I]. *)
Definition is_inverse (k : nat) (A W : nat -> nat -> R) : Prop :=
  forall i j, (i < k)%nat -> (j < k)%nat ->
    Rsum k (fun p => A i p * W p j) = (if (i =? j)%nat then 1 else 0)
    /\ Rsum k (fun p => W i p * A p j) = (if (i =? j)%nat then 1 else 0).

(** [V V^T] on the leading [k] by [k] block. *)
Definition gram (k : nat) (V : nat -> nat -> R) : nat -> nat -> R :=
  fun i j => Rsum k (fun r => V i r * V j r).

(** The function under [trimatu]. *)
Definition upper_part (U : nat -> nat -> R) : nat -> nat -> R :=
  fun i j => if (j <? i)%nat then 0 else U i j.

(** The centred row [x.row(i) - mean], as a function of the coordinate. *)
Definition residual (x : mat) (mean : vec) (i : nat) : nat -> R :=
  fun j => nth j (zip_with Rminus (row x i) mean) 0.

(** The writes [x_cen.row(i) = f i] for the indices of [l], in that
    order. *)
Fixpoint set_rows (f : nat -> vec) (l : list nat) (A : mat) : mat :=
  match l with
  | [] => A
  | i :: l' => set_rows f l' (set_row A i (f i))
  end.

(** One thread runs the loop of [armasum2]: iteration after iteration,
    each a load and then its store. *)
Definition one_thread_trace (K : nat) : list access :=
  flat_map (fun k => [LoadRes k; StoreRes k]) (seq 0 K).

(** The iteration an access belongs to. *)
Definition access_iteration (a : access) : nat :=
  match a with LoadRes k | StoreRes k => k end.

(** [schedule(static)] with no chunk size gives every thread of the team
    at most one chunk of consecutive iterations, the chunks in the order
    of the threads: [owner k] is the thread that runs iteration [k]. *)
Definition static_partition (team : Z) (K : nat) (owner : nat -> nat) : Prop :=
  (forall k, (k < K)%nat -> (Z.of_nat (owner k) < team)%Z)
  /\ (forall k k', (k <= k')%nat -> (k' < K)%nat -> (owner k <= owner k')%nat).

(** What thread [t] does: its iterations in program order, each a load
    and then its store. *)
Definition thread_trace (owner : nat -> nat) (K t : nat) : list access :=
  flat_map (fun k => [LoadRes k; StoreRes k])
           (List.filter (fun k => (owner k =? t)%nat) (seq 0 K)).

(** An execution of the loop by the team: the accesses of the threads
    interleaved, those of each thread in the order of its program. *)
Definition team_execution (owner : nat -> nat) (K : nat) (tr : list access)
  : Prop :=
  Forall (fun a => (access_iteration a < K)%nat) tr
  /\ forall t, List.filter (fun a => (owner (access_iteration a) =? t)%nat) tr
               = thread_trace owner K t.

(** The thread of iteration 0, which runs the first [c] iterations, loads
    [res]; the other threads run their chunks, one thread after the
    other; then the first thread stores and goes on with its chunk. *)
Definition lost_update_trace (c K : nat) : list access :=
  LoadRes 0
  :: flat_map (fun k => [LoadRes k; StoreRes k]) (seq c (K - c))
  ++ StoreRes 0
  :: flat_map (fun k => [LoadRes k; StoreRes k]) (seq 1 (c - 1)).

End FurtherVocabulary.

(** The table of [add_exact_upto], computed on binary integers. *)
Definition add_exact_table (n : nat) : bool :=
  let zs := map Z.of_nat (seq 0 (S n)) in
  let N := Z.of_nat n in
  forallb (fun a =>
    forallb (fun b =>
      if (a + b <=? N)%Z
      then PrimFloat.Leibniz.eqb
             (PrimFloat.add (PrimFloat.of_uint63 (Uint63.of_Z a))
                            (PrimFloat.of_uint63 (Uint63.of_Z b)))
             (PrimFloat.of_uint63 (Uint63.of_Z (a + b)))
      else true) zs) zs.

(** Two plans for three elements: one worker, and a worker split off
    after the first element. *)
Definition one_worker : plan := Run 0 3.
Definition split_after_first : plan := Fork (Run 0 1) (Run 1 3).

(** ** The serial evaluator in binary64

    The same code with [double] read as IEEE 754 binary64: every
    arithmetic step rounds, and the tests of [chol] and of the triangular
    [inv] are made on the rounded values.  [log] and [exp] belong to the
    C library and are arguments here.  What is stated on this reading is
    which calls throw and which return; it does not depend on the order
    in which [arma::sum] adds. *)

Section Binary64.
Import PrimFloat.





















Variables flog fexp : float -> float.






End Binary64.

(** * Properties *)

(** ** Facts on real numbers used below *)

Section RealFacts.
Local Open Scope R_scope.

Lemma sqrt_4 : sqrt 4 = 2.
Proof. replace 4 with (2 * 2) by lra. apply sqrt_square; lra. Qed.

Lemma PI_gt_3 : 3 < PI.
Proof. pose proof PI2_3_2; lra. Qed.

Lemma ln_2PI_gt_1 : 1 < ln (2 * PI).
Proof.
  pose proof PI_gt_3 as HPI. pose proof exp_le_3 as He.
  rewrite <- (ln_exp 1) at 1.
  apply ln_increasing; [apply exp_pos | lra].
Qed.

Lemma sqrt_2PI_gt_2 : 2 < sqrt (2 * PI).
Proof.
  pose proof PI_gt_3 as HPI.
  pose proof (sqrt_lt_1 4 (2 * PI)) as H.
  rewrite sqrt_4 in H. apply H; lra.
Qed.

End RealFacts.

(** ** The constant term of the log-density *)

Section Constants.
Local Open Scope R_scope.

(** For an even dimension the integer quotient is the half. *)
Lemma constants_even (m : Z) :
  (0 <= m)%Z -> constants (2 * m) = - (IZR (2 * m) / 2) * ln (2 * PI).
Proof.
  intros Hm. unfold constants.
  replace (2 * m ÷ 2)%Z with m.
  - rewrite opp_IZR, mult_IZR. f_equal. lra.
  - symmetry. rewrite (Z.mul_comm 2 m). apply Z.quot_mul. lia.
Qed.

(** For an odd dimension the integer quotient drops the half. *)
Lemma constants_odd (m : Z) :
  (0 <= m)%Z -> constants (2 * m + 1) = - IZR m * ln (2 * PI).
Proof.
  intros Hm. unfold constants.
  replace ((2 * m + 1) ÷ 2)%Z with m.
  - now rewrite opp_IZR.
  - rewrite Z.quot_div_nonneg by lia.
    apply Z.div_unique with 1%Z; lia.
Qed.

(** C1 (the code departs from the claim): for every odd dimension
    [k = 2m+1] the log-normalization constant the evaluator computes,
    [constants k + rootisum rooti], is not [-(k/2) log(2 pi)] plus the sum
    of the logs of the factor's diagonal with the real half of [k]: the
    integer division [xdim/2] drops the half, and the computed constant is
    larger than that value by [log(2 pi)/2], which is more than 1/2. *)
Theorem constants_odd_dimension_off_by_half_log2pi (m : Z) (rooti : mat) :
  (0 <= m)%Z ->
  let k := (2 * m + 1)%Z in
  (constants k + rootisum rooti)
    - (- (IZR k / 2) * ln (2 * PI) + rootisum rooti) = ln (2 * PI) / 2
  /\ 1 / 2 < ln (2 * PI) / 2.
Proof.
  intros Hm k. subst k. split.
  - rewrite constants_odd by assumption.
    rewrite plus_IZR, mult_IZR. lra.
  - pose proof ln_2PI_gt_1. lra.
Qed.

Lemma constants_odd_dimension_off_by_half_log2pi_witness :
  (constants 1 + rootisum (mat_of_rows [[/ 2]]))
    - (- (IZR 1 / 2) * ln (2 * PI) + rootisum (mat_of_rows [[/ 2]]))
    = ln (2 * PI) / 2
  /\ 1 / 2 < ln (2 * PI) / 2.
Proof.
  apply (constants_odd_dimension_off_by_half_log2pi 0 (mat_of_rows [[/ 2]])).
  lia.
Defined.

End Constants.

(** ** Scalar scenarios *)

(** Running the evaluator on a literal input: the pivots are simplified,
    the tests on them decided, and the loop unrolled. *)
Ltac simplify_pivot :=
  rewrite ?sqrt_4, ?sqrt_1;
  repeat match goal with
    | |- context [(?a - 0 / ?b * (0 / ?c))%R] =>
        replace (a - 0 / b * (0 / c))%R with a by (field; lra)
    end.

Ltac decide_pivot :=
  match goal with
  | |- context [Rlt_dec ?a ?b] =>
      destruct (Rlt_dec a b); [|exfalso; lra]
  | |- context [Req_dec_T ?a ?b] =>
      destruct (Req_dec_T a b); [exfalso; lra|]
  end.

Ltac run_evaluator :=
  unfold dmvnrm_arma, whitening, chol, inv_upper; cbn;
  repeat (simplify_pivot; decide_pivot; cbn);
  unfold row_body, vec_minus, mat_vec; cbn;
  unfold rootisum, constants, dot, Arma.sum; cbn.

Section Scenarios.
Local Open Scope R_scope.

(** What the code returns for covariance [[4]], mean [0] and the row [2]
    on the natural scale. *)
Lemma dmvnrm_arma_scalar_value :
  dmvnrm_arma (mat_of_rows [[2]]) [0] (mat_of_rows [[4]]) false
  = Returns [/ 2 * exp (- / 2)].
Proof.
  run_evaluator.
  do 2 f_equal.
  match goal with |- exp ?X = _ => replace X with (ln (/ 2) + - / 2) end.
  - rewrite exp_plus, exp_ln; lra.
  - change (- (Z.of_nat 1 ÷ 2))%Z with 0%Z. lra.
Qed.

(** What the code returns for covariance [[1]], mean [0] and the row [0]
    on the log scale. *)
Lemma dmvnrm_arma_unit_value :
  dmvnrm_arma (mat_of_rows [[0]]) [0] (mat_of_rows [[1]]) true = Returns [0].
Proof.
  run_evaluator.
  do 2 f_equal.
  change (- (Z.of_nat 1 ÷ 2))%Z with 0%Z. rewrite Rinv_1, ln_1. lra.
Qed.

(** C2 (the code departs from the claim): for k = 1, covariance [[4]],
    mean [0] and the single row [2], the evaluator on the natural scale
    returns [exp(-1/2) / 2], which is more than twice the density
    [(1 / (2 sqrt(2 pi))) exp(-0.5)] of N(0,4) at 2, so the two do not
    agree within any tolerance up to one half. *)
Theorem dmvnrm_arma_scalar_not_the_density :
  let density := 1 / (2 * sqrt (2 * PI)) * exp (- 0.5) in
  exists y,
    dmvnrm_arma (mat_of_rows [[2]]) [0] (mat_of_rows [[4]]) false = Returns [y]
    /\ y = / 2 * exp (- / 2)
    /\ 2 * density < y
    /\ ~ agree_within (1 / 2) y density.
Proof.
  intros density. exists (/ 2 * exp (- / 2)).
  assert (Hd : 0 < density /\ 2 * density < / 2 * exp (- / 2)).
  { subst density. replace (- 0.5) with (- / 2) by lra.
    pose proof (exp_pos (- / 2)) as He. pose proof sqrt_2PI_gt_2 as Hs.
    assert (Hi : 0 < / (2 * sqrt (2 * PI)) < / 4).
    { split.
      - apply Rinv_0_lt_compat; lra.
      - apply Rinv_lt_contravar; lra. }
    unfold Rdiv. rewrite Rmult_1_l. split; nra. }
  destruct Hd as [Hpos Hlt].
  repeat split; [exact dmvnrm_arma_scalar_value | exact Hlt |].
  unfold agree_within. intros Hag.
  rewrite !Rabs_pos_eq in Hag by lra.
  rewrite Rmax_left in Hag by lra.
  lra.
Qed.

End Scenarios.

(** ** The two forms of the log-density *)

Section Forms.
Local Open Scope R_scope.

Variable inv : mat -> outcome mat.
Variable eig_sym : mat -> outcome vec.

(** What is used of the two LAPACK routines: the inverse of the 1 by 1
    matrix [[a]] is [[1/a]], and the only eigenvalue of [[a]] is [a]. *)
Hypothesis inv_scalar : forall a, a <> 0 ->
  exists V, inv (mat_of_rows [[a]]) = Returns V /\
            n_rows V = 1%nat /\ n_cols V = 1%nat /\ at_ V 0 0 = / a.
Hypothesis eig_sym_scalar : forall a, eig_sym (mat_of_rows [[a]]) = Returns [a].

Lemma dmvnorm_arma_unit_value :
  dmvnorm_arma inv eig_sym (mat_of_rows [[0]]) [0] (mat_of_rows [[1]]) true
  = Returns [- (ln (2 * PI) / 2)].
Proof using inv_scalar eig_sym_scalar.
  destruct (inv_scalar 1) as (V & HV & Hr & Hc & H00); [lra|].
  unfold dmvnorm_arma, Mahalanobis. cbn.
  rewrite HV. cbn. unfold mat_mul, schur_mat. cbn. rewrite Hr, Hc. cbn.
  rewrite eig_sym_scalar. cbn. rewrite H00.
  do 2 f_equal. rewrite ln_1. lra.
Qed.

(** C3 (the code departs from the claim): in dimension k = 1, for the
    covariance [[1]], the mean [0] and the row [0], the whitening-factor
    form returns the log-density 0 and the Mahalanobis form returns
    [-log(2 pi)/2]; the two do not agree within any relative tolerance
    below 1, so not within 1e-8. *)
Theorem forms_disagree_in_dimension_one :
  exists a b,
    dmvnrm_arma (mat_of_rows [[0]]) [0] (mat_of_rows [[1]]) true = Returns [a]
    /\ dmvnorm_arma inv eig_sym (mat_of_rows [[0]]) [0] (mat_of_rows [[1]]) true
       = Returns [b]
    /\ a - b = ln (2 * PI) / 2
    /\ ~ agree_within 1e-8 a b.
Proof using inv_scalar eig_sym_scalar.
  exists 0, (- (ln (2 * PI) / 2)).
  pose proof ln_2PI_gt_1 as Hln.
  repeat split;
    [exact dmvnrm_arma_unit_value | exact dmvnorm_arma_unit_value | lra |].
  unfold agree_within. intros Hag.
  rewrite Rabs_R0 in Hag.
  rewrite (Rabs_left (- (ln (2 * PI) / 2))) in Hag by lra.
  rewrite Rabs_pos_eq in Hag by lra.
  rewrite Rmax_right in Hag by lra.
  lra.
Qed.

End Forms.

Section FormsInstance.
Local Open Scope R_scope.

Lemma forms_disagree_in_dimension_one_witness :
  exists a b,
    dmvnrm_arma (mat_of_rows [[0]]) [0] (mat_of_rows [[1]]) true = Returns [a]
    /\ dmvnorm_arma inv_diagonal eig_sym_diagonal
         (mat_of_rows [[0]]) [0] (mat_of_rows [[1]]) true = Returns [b]
    /\ a - b = ln (2 * PI) / 2
    /\ ~ agree_within 1e-8 a b.
Proof.
  apply (forms_disagree_in_dimension_one inv_diagonal eig_sym_diagonal).
  - intros a _. eexists. repeat split; reflexivity.
  - intros a. reflexivity.
Defined.

End FormsInstance.

(** ** Log scale and natural scale *)

Section Scales.

(** The loop of [dmvnrm_arma] does not look at [logd]: the flag only
    selects the last step. *)
Lemma dmvnrm_arma_finish (x : mat) (mean : vec) (sigma : mat) (logd : bool) :
  dmvnrm_arma x mean sigma logd = finish logd <$> dmvnrm_arma x mean sigma true.
Proof.
  unfold dmvnrm_arma.
  destruct (whitening sigma) as [rooti| |]; cbn; try reflexivity.
  destruct (for_loop _ _ _) as [out| |]; cbn; reflexivity.
Qed.

(** C5: for every input, the result on the natural scale is the
    element-wise exponential of the result on the log scale (and fails as
    it does when it fails); the exponential is one pass over the vector
    the loop has completed. *)
Theorem dmvnrm_arma_natural_is_exp_of_log (x : mat) (mean : vec) (sigma : mat) :
  dmvnrm_arma x mean sigma false = map exp <$> dmvnrm_arma x mean sigma true.
Proof. exact (dmvnrm_arma_finish x mean sigma false). Qed.

End Scales.

(** ** Serial and parallel evaluation *)

Section Loops.
Local Open Scope R_scope.

Lemma write_all_length f l out : length (write_all f l out) = length out.
Proof.
  revert out. induction l as [|i l IH]; intros out; cbn; [reflexivity|].
  rewrite IH. apply length_insert.
Qed.

Lemma write_all_lookup_notin f l out (j : nat) :
  j ∉ l -> write_all f l out !! j = out !! j.
Proof.
  revert out. induction l as [|i l IH]; intros out Hj; cbn; [reflexivity|].
  apply not_elem_of_cons in Hj as [Hji Hjl].
  rewrite IH by assumption. apply list_lookup_insert_ne. congruence.
Qed.

Lemma write_all_lookup_in f l out (j : nat) :
  j ∈ l -> (j < length out)%nat -> write_all f l out !! j = Some (f j).
Proof.
  revert out. induction l as [|i l IH]; intros out Hj Hlen; cbn.
  - inversion Hj.
  - destruct (decide (j ∈ l)) as [Hin|Hnin].
    + apply IH; [assumption|].
      eapply Nat.lt_le_trans; [exact Hlen|].
      apply Nat.eq_le_incl. symmetry. apply length_insert.
    + apply elem_of_cons in Hj as [->|Hj]; [|contradiction].
      rewrite write_all_lookup_notin by assumption.
      now apply list_lookup_insert_eq.
Qed.

(** Writing every index of [0, n) once, in any order, fills the vector
    with [f 0, ..., f (n-1)]. *)
Lemma write_all_permutation f l (n : nat) out :
  Permutation l (seq 0 n) -> length out = n ->
  write_all f l out = map f (seq 0 n).
Proof.
  intros Hperm Hlen. apply list_eq. intros j.
  destruct (decide (j < n)%nat) as [Hj|Hj].
  - rewrite write_all_lookup_in.
    + symmetry. change (map f (seq 0 n)) with (f <$> seq 0 n).
      rewrite list_lookup_fmap, lookup_seq_lt by assumption. reflexivity.
    + rewrite Hperm. apply elem_of_seq. lia.
    + lia.
  - rewrite (proj2 (lookup_ge_None _ _)).
    + symmetry. apply lookup_ge_None. rewrite length_map, length_seq. lia.
    + rewrite write_all_length. lia.
Qed.

Section Body.
Variables (x : mat) (mean : vec) (rooti : mat) (cst rsum : R).
Hypothesis mean_size : n_cols x = length mean.
Hypothesis rooti_size : n_cols rooti = n_cols x.

(** With matching sizes an iteration throws nothing and writes its
    element. *)
Lemma row_body_returns (i : nat) (out : vec) :
  row_body x mean rooti cst rsum i out
  = Returns (<[ i := log_density x mean rooti cst rsum i ]> out).
Proof using mean_size rooti_size.
  unfold row_body, vec_minus, mat_vec, row.
  rewrite length_map, length_seq, mean_size, Nat.eqb_refl. cbn.
  rewrite length_zip_with, length_map, length_seq, Nat.min_id.
  rewrite rooti_size, mean_size, Nat.eqb_refl. cbn.
  unfold log_density, row. rewrite ?rooti_size, ?mean_size. reflexivity.
Qed.

Lemma for_loop_writes (l : list nat) (out : vec) :
  for_loop l (row_body x mean rooti cst rsum) out
  = Returns (write_all (log_density x mean rooti cst rsum) l out).
Proof using mean_size rooti_size.
  revert out. induction l as [|i l IH]; intros out; cbn; [reflexivity|].
  rewrite row_body_returns. cbn. apply IH.
Qed.

Lemma omp_parallel_for_writes (s : schedule) (out : vec) :
  omp_parallel_for s (row_body x mean rooti cst rsum) out
  = Returns (write_all (log_density x mean rooti cst rsum) (map snd s) out).
Proof using mean_size rooti_size.
  revert out. induction s as [|[t i] s IH]; intros out; cbn; [reflexivity|].
  rewrite row_body_returns. apply IH.
Qed.

End Body.

(** The whitening factor has the dimensions of the covariance. *)
Lemma whitening_size (sigma rooti : mat) :
  whitening sigma = Returns rooti ->
  n_rows rooti = n_cols sigma /\ n_cols rooti = n_rows sigma.
Proof.
  unfold whitening, chol, inv_upper. cbn.
  destruct (n_rows sigma =? n_cols sigma)%nat; cbn; [|discriminate].
  destruct (chol_rec _ _) as [U| |]; cbn; try discriminate.
  destruct (n_rows sigma =? n_cols sigma)%nat; cbn; [|discriminate].
  destruct (inv_upper_rec _ _) as [V| |]; cbn; try discriminate.
  intros [= <-]. cbn. split; reflexivity.
Qed.

(** Serial and parallel evaluation of one call, for any thread count and
    any schedule that runs every iteration once. *)
Lemma dmvnrm_arma_mc_serial (s : schedule) (x : mat) (mean : vec) (sigma : mat)
    (logd : bool) (cores : Z) (rt : omp_runtime) :
  valid_dims x mean sigma ->
  Permutation (map snd s) (seq 0 (n_rows x)) ->
  fst (dmvnrm_arma_mc s x mean sigma logd cores rt) = dmvnrm_arma x mean sigma logd.
Proof.
  intros (Hmean & Hsr & Hsc) Hperm.
  unfold dmvnrm_arma_mc, dmvnrm_arma. cbn.
  destruct (whitening sigma) as [rooti| |] eqn:Hw; cbn; try reflexivity.
  apply whitening_size in Hw as [_ Hc].
  rewrite omp_parallel_for_writes, for_loop_writes by congruence. cbn.
  rewrite !(write_all_permutation _ _ (n_rows x));
    auto using length_replicate. 
Qed.

End Loops.

(** ** The parallel evaluator and the thread count *)

Section Parallel.
Local Open Scope R_scope.

(** C4: for every call with matching sizes, every worker count
    [W >= 1] and every schedule of the rows over the [W] threads (static
    or dynamic, in any order of completion), the parallel evaluator
    returns what the serial evaluator returns on the same rows, mean,
    covariance and scale. *)
Theorem dmvnrm_arma_mc_agrees_with_serial (s : schedule) (x : mat) (mean : vec)
    (sigma : mat) (logd : bool) (W : Z) (rt : omp_runtime) :
  (1 <= W)%Z ->
  valid_dims x mean sigma ->
  valid_schedule W (n_rows x) s ->
  fst (dmvnrm_arma_mc s x mean sigma logd W rt) = dmvnrm_arma x mean sigma logd.
Proof.
  intros _ Hdims [_ Hperm]. now apply dmvnrm_arma_mc_serial.
Qed.

Lemma dmvnrm_arma_mc_agrees_with_serial_witness :
  fst (dmvnrm_arma_mc [(1, 1); (0, 0)]%nat (mat_of_rows [[0]; [1]]) [0]
         (mat_of_rows [[1]]) false 2 {| nthreads_var := 8 |})
  = dmvnrm_arma (mat_of_rows [[0]; [1]]) [0] (mat_of_rows [[1]]) false.
Proof.
  apply dmvnrm_arma_mc_agrees_with_serial.
  - lia.
  - repeat split; reflexivity.
  - split.
    + repeat constructor; cbn; lia.
    + cbn. apply perm_swap.
Defined.

(** C7 (counterexample): a call with 4 workers made while the process-wide
    thread count is 1 leaves that setting at 4 after it has returned. *)
Lemma dmvnrm_arma_mc_leaves_thread_count_changed :
  nthreads_var {| nthreads_var := 1 |} = 1%Z /\
  nthreads_var
    (snd (dmvnrm_arma_mc [(0, 0)]%nat (mat_of_rows [[0]]) [0] (mat_of_rows [[1]])
            true 4 {| nthreads_var := 1 |})) = 4%Z.
Proof. split; reflexivity. Qed.

(** C7 (as amended): a call with worker count [W >= 1] overwrites the
    process-wide OpenMP thread count with [W] and leaves it so when it
    returns or throws; what the call computes does not depend on the
    thread count left by an earlier call. *)
Theorem dmvnrm_arma_mc_sets_thread_count (s : schedule) (x : mat) (mean : vec)
    (sigma : mat) (logd : bool) (W : Z) (rt : omp_runtime) :
  (1 <= W)%Z ->
  snd (dmvnrm_arma_mc s x mean sigma logd W rt) = {| nthreads_var := W |}
  /\ forall rt' : omp_runtime,
       fst (dmvnrm_arma_mc s x mean sigma logd W rt')
       = fst (dmvnrm_arma_mc s x mean sigma logd W rt).
Proof.
  intros HW. split; [|reflexivity].
  unfold dmvnrm_arma_mc, omp_set_num_threads. cbn.
  destruct (Z.ltb_spec 0 W); [reflexivity | lia].
Qed.

Lemma dmvnrm_arma_mc_sets_thread_count_witness :
  snd (dmvnrm_arma_mc [(0, 0)]%nat (mat_of_rows [[0]]) [0] (mat_of_rows [[1]])
         true 4 {| nthreads_var := 1 |}) = {| nthreads_var := 4 |}
  /\ forall rt' : omp_runtime,
       fst (dmvnrm_arma_mc [(0, 0)]%nat (mat_of_rows [[0]]) [0]
              (mat_of_rows [[1]]) true 4 rt')
       = fst (dmvnrm_arma_mc [(0, 0)]%nat (mat_of_rows [[0]]) [0]
                (mat_of_rows [[1]]) true 4 {| nthreads_var := 1 |}).
Proof.
  apply dmvnrm_arma_mc_sets_thread_count. lia.
Defined.

(** C8 (counterexample): called with 0 workers on the covariance [[1]],
    the mean [0] and the row [0], the parallel evaluator raises nothing
    and returns the log-density. *)
Lemma dmvnrm_arma_mc_zero_cores_returns :
  fst (dmvnrm_arma_mc [(0, 0)]%nat (mat_of_rows [[0]]) [0] (mat_of_rows [[1]])
         true 0 {| nthreads_var := 1 |}) = Returns [0].
Proof.
  rewrite dmvnrm_arma_mc_serial.
  - exact dmvnrm_arma_unit_value.
  - repeat split; reflexivity.
  - cbn. reflexivity.
Qed.

(** C8 (as amended): the parallel evaluator does not check the worker
    count.  For a worker count below 1 and every call with matching sizes
    it raises no configuration error: the runtime takes the request as one
    thread and the call returns what the serial evaluator returns. *)
Theorem dmvnrm_arma_mc_unchecked_worker_count (s : schedule) (x : mat)
    (mean : vec) (sigma : mat) (logd : bool) (W : Z) (rt : omp_runtime) :
  (W < 1)%Z ->
  valid_dims x mean sigma ->
  valid_schedule 1 (n_rows x) s ->
  snd (dmvnrm_arma_mc s x mean sigma logd W rt) = {| nthreads_var := 1 |}
  /\ fst (dmvnrm_arma_mc s x mean sigma logd W rt) = dmvnrm_arma x mean sigma logd.
Proof.
  intros HW Hdims [_ Hperm]. split.
  - unfold dmvnrm_arma_mc, omp_set_num_threads. cbn.
    destruct (Z.ltb_spec 0 W); [lia | reflexivity].
  - now apply dmvnrm_arma_mc_serial.
Qed.

Lemma dmvnrm_arma_mc_unchecked_worker_count_witness :
  snd (dmvnrm_arma_mc [(0, 0)]%nat (mat_of_rows [[0]]) [0] (mat_of_rows [[1]])
         true (-3) {| nthreads_var := 8 |}) = {| nthreads_var := 1 |}
  /\ fst (dmvnrm_arma_mc [(0, 0)]%nat (mat_of_rows [[0]]) [0] (mat_of_rows [[1]])
            true (-3) {| nthreads_var := 8 |})
     = dmvnrm_arma (mat_of_rows [[0]]) [0] (mat_of_rows [[1]]) true.
Proof.
  apply dmvnrm_arma_mc_unchecked_worker_count.
  - lia.
  - repeat split; reflexivity.
  - split.
    + repeat constructor; cbn; lia.
    + cbn. reflexivity.
Defined.

(** [armasum2] makes the same write to the thread count. *)
Lemma armasum2_sets_thread_count (tr : list access) (x : vec) (W : Z)
    (rt : omp_runtime) :
  (1 <= W)%Z -> snd (armasum2 tr x W rt) = {| nthreads_var := W |}.
Proof.
  intros HW. unfold armasum2, omp_set_num_threads. cbn.
  destruct (Z.ltb_spec 0 W); [reflexivity | lia].
Qed.

(** Its unprotected [res += x(k)]: one thread after the other the loop
    sums [1, 2] to 3; when both load before either stores, the first
    store is lost. *)
Lemma armasum2_interleavings (rt : omp_runtime) :
  fst (armasum2 [LoadRes 0; StoreRes 0; LoadRes 1; StoreRes 1]%nat [1; 2] 2 rt) = 3
  /\ fst (armasum2 [LoadRes 0; LoadRes 1; StoreRes 0; StoreRes 1]%nat [1; 2] 2 rt) = 2.
Proof. cbn. split; lra. Qed.

End Parallel.

(** ** Finite sums *)

Section Sums.
Local Open Scope R_scope.

Lemma Rsum_ext (n : nat) (f g : nat -> R) :
  (forall i, (i < n)%nat -> f i = g i) -> Rsum n f = Rsum n g.
Proof.
  revert f g. induction n as [|n IH]; intros f g Hfg; cbn; [reflexivity|].
  rewrite (Hfg O) by lia. f_equal.
  apply IH. intros i Hi. apply Hfg. lia.
Qed.

Lemma Rsum_plus (n : nat) (f g : nat -> R) :
  Rsum n (fun i => f i + g i) = Rsum n f + Rsum n g.
Proof.
  revert f g. induction n as [|n IH]; intros f g; cbn; [lra|].
  rewrite IH. lra.
Qed.

Lemma Rsum_mult_l (n : nat) (c : R) (f : nat -> R) :
  Rsum n (fun i => c * f i) = c * Rsum n f.
Proof.
  revert f. induction n as [|n IH]; intros f; cbn; [lra|].
  rewrite IH. lra.
Qed.

Lemma Rsum_mult_r (n : nat) (c : R) (f : nat -> R) :
  Rsum n (fun i => f i * c) = Rsum n f * c.
Proof.
  revert f. induction n as [|n IH]; intros f; cbn; [lra|].
  rewrite IH. lra.
Qed.

Lemma Rsum_zero (n : nat) (f : nat -> R) :
  (forall i, (i < n)%nat -> f i = 0) -> Rsum n f = 0.
Proof.
  revert f. induction n as [|n IH]; intros f Hf; cbn; [reflexivity|].
  rewrite (Hf O) by lia. rewrite IH; [lra|].
  intros i Hi. apply Hf. lia.
Qed.

(** Either some coordinate below [n] is not zero or all of them are. *)
Lemma nonzero_or_all_zero (n : nat) (w : nat -> R) :
  (exists i, (i < n)%nat /\ w i <> 0) \/ (forall i, (i < n)%nat -> w i = 0).
Proof.
  induction n as [|n [(i & Hi & Hw)|Hall]].
  - right. intros i Hi. lia.
  - left. exists i. split; [lia | assumption].
  - destruct (Req_dec (w n) 0) as [Hn|Hn].
    + right. intros i Hi. destruct (decide (i = n)) as [->|Hne];
        [assumption | apply Hall; lia].
    + left. exists n. split; [lia | assumption].
Qed.

End Sums.

(** ** Cholesky factorisation and positive definiteness *)

Section Cholesky.
Local Open Scope R_scope.

(** The factorisation returns a factor or throws [chol_failed]; nothing
    else. *)
Lemma chol_rec_outcome (k : nat) (A : nat -> nat -> R) :
  (exists U, chol_rec k A = Returns U) \/ chol_rec k A = Throws chol_failed.
Proof.
  revert A. induction k as [|k IH]; intros A; cbn.
  - left. eauto.
  - destruct (Rlt_dec 0 (A O O)) as [Ha|Ha]; [|right; reflexivity].
    destruct (IH (fun i j => A (S i) (S j)
                             - A O (S i) / sqrt (A O O) * (A O (S j) / sqrt (A O O))))
      as [[U' ->]| ->]; cbn; [left; eauto | right; reflexivity].
Qed.

Lemma quad_form_S (k : nat) (A : nat -> nat -> R) (v : nat -> R) :
  quad_form (S k) A v
  = v O * A O O * v O
    + Rsum k (fun j => v O * A O (S j) * v (S j))
    + Rsum k (fun i => v (S i) * A (S i) O * v O
                       + Rsum k (fun j => v (S i) * A (S i) (S j) * v (S j))).
Proof. reflexivity. Qed.

(** One step of the factorisation splits the quadratic form into a square
    and the quadratic form of the Schur complement. *)
Lemma quad_form_schur (k : nat) (A : nat -> nat -> R) (v : nat -> R) :
  0 < A O O -> sym_fun (S k) A ->
  quad_form (S k) A v
  = (sqrt (A O O) * v O
     + Rsum k (fun j => A O (S j) / sqrt (A O O) * v (S j)))²
    + quad_form k
        (fun i j => A (S i) (S j)
                    - A O (S i) / sqrt (A O O) * (A O (S j) / sqrt (A O O)))
        (fun i => v (S i)).
Proof.
  intros Ha Hsym.
  set (r := sqrt (A O O)).
  set (u := fun j => A O (S j) / r).
  set (w := fun i => v (S i)).
  set (t := Rsum k (fun j => A O (S j) / r * v (S j))).
  assert (Hr : 0 < r) by (apply sqrt_lt_R0; exact Ha).
  assert (Hrr : r * r = A O O) by (apply sqrt_sqrt; lra).
  assert (Hu : forall j, A O (S j) = r * u j)
    by (intros j; unfold u; field; lra).
  rewrite quad_form_S.
  assert (E1 : Rsum k (fun j => v O * A O (S j) * v (S j)) = v O * r * t).
  { unfold t. rewrite <- Rsum_mult_l. apply Rsum_ext. intros j _.
    rewrite Hu. unfold u. field. lra. }
  assert (E2 : Rsum k (fun i => v (S i) * A (S i) O * v O
                       + Rsum k (fun j => v (S i) * A (S i) (S j) * v (S j)))
               = r * v O * t
                 + (quad_form k
                      (fun i j => A (S i) (S j) - A O (S i) / r * (A O (S j) / r)) w
                    + t * t)).
  { rewrite Rsum_plus. f_equal.
    - unfold t. rewrite <- Rsum_mult_l. apply Rsum_ext. intros i Hi.
      rewrite (Hsym (S i) O) by lia. rewrite Hu. unfold u. field. lra.
    - unfold quad_form.
      transitivity
        (Rsum k (fun i =>
                   Rsum k (fun j =>
                             w i * (A (S i) (S j) - A O (S i) / r * (A O (S j) / r))
                             * w j)
                   + w i * u i * t)).
      + apply Rsum_ext. intros i Hi. unfold t.
        rewrite <- Rsum_mult_l, <- Rsum_plus. apply Rsum_ext. intros j Hj.
        unfold w, u. field. lra.
      + rewrite Rsum_plus. f_equal. rewrite Rsum_mult_r. f_equal.
        unfold t. apply Rsum_ext. intros i Hi. unfold w, u. field. lra. }
  rewrite E1, E2. unfold Rsqr. rewrite <- Hrr. ring.
Qed.

Lemma sym_fun_schur (k : nat) (A : nat -> nat -> R) (r : R) :
  sym_fun (S k) A ->
  sym_fun k (fun i j => A (S i) (S j) - A O (S i) / r * (A O (S j) / r)).
Proof.
  intros Hsym i j Hi Hj. cbn. rewrite (Hsym (S i) (S j)) by lia. ring.
Qed.

(** A symmetric matrix that [chol] factors is positive definite. *)
Lemma chol_rec_pos_def (k : nat) (A U : nat -> nat -> R) :
  sym_fun k A -> chol_rec k A = Returns U -> pos_def_fun k A.
Proof.
  revert A U. induction k as [|k IH]; intros A U Hsym Hchol v (i & Hi & Hv).
  - lia.
  - cbn in Hchol.
    destruct (Rlt_dec 0 (A O O)) as [Ha|Ha]; [|discriminate].
    destruct (chol_rec k _) as [U'| |] eqn:HU'; try discriminate.
    apply IH in HU'; [|apply sym_fun_schur; exact Hsym].
    rewrite quad_form_schur by assumption.
    match goal with |- 0 < ?s² + _ => pose proof (Rle_0_sqr s) as Hsq end.
    destruct (nonzero_or_all_zero k (fun i => v (S i))) as [Hex|Hall].
    + specialize (HU' _ Hex). apply Rplus_le_lt_0_compat; assumption.
    + assert (Hv0 : v O <> 0).
      { destruct i as [|i]; [exact Hv|]. exfalso. apply Hv, Hall. lia. }
      rewrite (Rsum_zero k (fun j => _ * v (S j)))
        by (intros j Hj; rewrite (Hall j) by lia; ring).
      unfold quad_form at 1.
      rewrite Rsum_zero.
      * assert (Hr : 0 < sqrt (A O O)) by (apply sqrt_lt_R0; exact Ha).
        assert (Hne : sqrt (A O O) * v O <> 0)
          by (apply Rmult_integral_contrapositive_currified; lra).
        apply Rsqr_pos_lt in Hne. unfold Rsqr in *. lra.
      * intros p Hp. apply Rsum_zero. intros q Hq.
        rewrite (Hall p) by lia. ring.
Qed.

(** The factor is what Armadillo documents: [trans(U) * U = A], with a
    positive diagonal and zeros below it. *)
Lemma chol_rec_factor (k : nat) (A U : nat -> nat -> R) :
  sym_fun k A -> chol_rec k A = Returns U ->
  (forall i j, (i < k)%nat -> (j < k)%nat ->
     Rsum k (fun p => U p i * U p j) = A i j)
  /\ (forall i, (i < k)%nat -> 0 < U i i)
  /\ (forall i j, (j < i)%nat -> U i j = 0).
Proof.
  revert A U. induction k as [|k IH]; intros A U Hsym Hchol.
  - injection Hchol as <-. repeat split; intros; lia || reflexivity.
  - cbn in Hchol.
    destruct (Rlt_dec 0 (A O O)) as [Ha|Ha]; [|discriminate].
    destruct (chol_rec k _) as [U'| |] eqn:HU'; try discriminate.
    cbn in Hchol. injection Hchol as <-.
    apply IH in HU' as (Hfac & Hdiag & Hlow); [|apply sym_fun_schur; exact Hsym].
    assert (Hr : 0 < sqrt (A O O)) by (apply sqrt_lt_R0; exact Ha).
    assert (Hrr : sqrt (A O O) * sqrt (A O O) = A O O) by (apply sqrt_sqrt; lra).
    repeat split.
    + intros i j Hi Hj. cbn [Rsum].
      destruct i as [|i], j as [|j].
      * rewrite Rsum_zero by (intros; ring). lra.
      * rewrite Rsum_zero by (intros; ring). field. lra.
      * rewrite Rsum_zero by (intros; ring).
        rewrite (Hsym (S i) O) by lia. field. lra.
      * rewrite Hfac by lia. field. lra.
    + intros [|i] Hi; [exact Hr | apply Hdiag; lia].
    + intros [|i] [|j] Hij; try lia; [reflexivity | apply Hlow; lia].
Qed.

(** A symmetric positive definite matrix is factored. *)
Lemma chol_rec_complete (k : nat) (A : nat -> nat -> R) :
  sym_fun k A -> pos_def_fun k A -> exists U, chol_rec k A = Returns U.
Proof.
  revert A. induction k as [|k IH]; intros A Hsym Hpd; cbn.
  - eauto.
  - assert (Ha : 0 < A O O).
    { specialize (Hpd (fun i => match i with O => 1 | S _ => 0 end)).
      rewrite quad_form_S in Hpd.
      rewrite !Rsum_zero in Hpd.
      - replace (A O O) with (1 * A O O * 1 + 0 + 0) by ring.
        apply Hpd. exists O. split; [lia | lra].
      - intros i _. rewrite Rsum_zero by (intros; ring). ring.
      - intros j _. ring. }
    destruct (Rlt_dec 0 (A O O)) as [_|Hn]; [|contradiction].
    destruct (IH (fun i j => A (S i) (S j)
                             - A O (S i) / sqrt (A O O) * (A O (S j) / sqrt (A O O))))
      as [U' ->]; cbn; [apply sym_fun_schur; exact Hsym | | eauto].
    intros w (i & Hi & Hw).
    assert (Hr : 0 < sqrt (A O O)) by (apply sqrt_lt_R0; exact Ha).
    set (t := Rsum k (fun j => A O (S j) / sqrt (A O O) * w j)).
    specialize (Hpd (fun i => match i with O => - t / sqrt (A O O) | S i' => w i' end)).
    rewrite quad_form_schur in Hpd by assumption.
    fold t in Hpd.
    replace (sqrt (A O O) * (- t / sqrt (A O O)) + t) with 0 in Hpd
      by (field; lra).
    rewrite Rsqr_0, Rplus_0_l in Hpd.
    apply Hpd. exists (S i). split; [lia | exact Hw].
Qed.

(** The triangular inverse succeeds on a nonzero diagonal, and is the
    inverse. *)
Lemma inv_upper_rec_returns (k : nat) (U : nat -> nat -> R) :
  (forall i, (i < k)%nat -> U i i <> 0) -> exists V, inv_upper_rec k U = Returns V.
Proof.
  revert U. induction k as [|k IH]; intros U Hd; cbn.
  - eauto.
  - destruct (Req_dec_T (U O O) 0) as [H0|_]; [exfalso; apply (Hd O); [lia|exact H0]|].
    destruct (IH (fun i j => U (S i) (S j))) as [V' ->]; cbn; [|eauto].
    intros i Hi. apply (Hd (S i)). lia.
Qed.

Lemma inv_upper_rec_inverse (k : nat) (U V : nat -> nat -> R) :
  (forall i j, (j < i)%nat -> U i j = 0) ->
  inv_upper_rec k U = Returns V ->
  forall i j, (i < k)%nat -> (j < k)%nat ->
    Rsum k (fun p => U i p * V p j) = if (i =? j)%nat then 1 else 0.
Proof.
  revert U V. induction k as [|k IH]; intros U V Hup Hinv i j Hi Hj; [lia|].
  cbn in Hinv.
  destruct (Req_dec_T (U O O) 0) as [|Hne]; [discriminate|].
  destruct (inv_upper_rec k _) as [V'| |] eqn:HV'; try discriminate.
  cbn in Hinv. injection Hinv as <-.
  specialize (IH _ _ (fun i j Hij => Hup (S i) (S j) ltac:(lia)) HV').
  cbn [Rsum]. destruct i as [|i], j as [|j]; cbn [Nat.eqb].
  - rewrite Rsum_zero by (intros; ring). field. exact Hne.
  - field. exact Hne.
  - rewrite Rsum_zero by (intros; ring). rewrite (Hup (S i) O) by lia. ring.
  - rewrite IH by lia. rewrite (Hup (S i) O) by lia. ring.
Qed.

(** *** The evaluator on a valid call *)

Lemma whitening_returns (sigma : mat) :
  n_rows sigma = n_cols sigma -> symmetric sigma -> positive_definite sigma ->
  exists rooti, whitening sigma = Returns rooti.
Proof.
  intros Hsq Hsym [_ Hpd]. unfold whitening, chol.
  rewrite Hsq, Nat.eqb_refl, <- Hsq.
  destruct (chol_rec_complete _ _ Hsym Hpd) as [U HU]. rewrite HU. cbn.
  apply chol_rec_factor in HU as (_ & Hdiag & _); [|exact Hsym].
  unfold inv_upper. cbn -[Nat.ltb]. rewrite Hsq, Nat.eqb_refl, <- Hsq.
  destruct (inv_upper_rec_returns (n_rows sigma)
              (fun i j => if (j <? i)%nat then 0 else U i j)) as [V ->].
  - intros i Hi. rewrite Nat.ltb_irrefl. apply Rgt_not_eq, Hdiag, Hi.
  - cbn. eauto.
Qed.

(** On sizes that match and a symmetric positive definite covariance the
    evaluator returns a vector with one entry for each row. *)
Lemma dmvnrm_arma_returns (x : mat) (mean : vec) (sigma : mat) (logd : bool) :
  valid_dims x mean sigma -> symmetric sigma -> positive_definite sigma ->
  exists out, dmvnrm_arma x mean sigma logd = Returns out
              /\ length out = n_rows x.
Proof.
  intros (Hmean & Hsr & Hsc) Hsym Hpd.
  destruct (whitening_returns sigma) as [rooti Hw]; [congruence | assumption..|].
  unfold dmvnrm_arma. rewrite Hw. cbn.
  apply whitening_size in Hw as [_ Hc].
  rewrite for_loop_writes by congruence. cbn.
  eexists. split; [reflexivity|].
  unfold finish. destruct logd;
    rewrite ?length_map, write_all_length; apply length_replicate.
Qed.

End Cholesky.

(** ** A covariance that is not positive definite *)

Section NotPositiveDefinite.
Local Open Scope R_scope.

(** With the pivots taken as real numbers, the factorisation fails on
    every symmetric matrix that is not positive definite. *)
Lemma chol_not_positive_definite (sigma : mat) :
  n_rows sigma = n_cols sigma -> symmetric sigma -> ~ positive_definite sigma ->
  chol sigma = Throws chol_failed.
Proof.
  intros Hsq Hsym Hnpd. unfold chol.
  rewrite Hsq, Nat.eqb_refl, <- Hsq.
  destruct (chol_rec_outcome (n_rows sigma) (at_ sigma)) as [[U HU]|HU].
  - exfalso. apply Hnpd. split; [exact Hsq|].
    apply (chol_rec_pos_def _ _ U); [exact Hsym | exact HU].
  - rewrite HU. reflexivity.
Qed.

(** [chol] reads the upper triangle only: of a matrix that is not
    symmetric it factors the symmetric matrix with that upper triangle,
    and the evaluator returns a value. *)
Lemma chol_reads_upper_triangle_only :
  dmvnrm_arma (mat_of_rows [[0; 0]]) [0; 0] (mat_of_rows [[1; 0]; [5; 1]]) true
  = Returns [- ln (2 * PI)].
Proof.
  run_evaluator.
  do 2 f_equal.
  change (- (Z.of_nat 2 ÷ 2))%Z with (-1)%Z. rewrite !Rinv_1, ln_1. lra.
Qed.

End NotPositiveDefinite.

(** ** The factorisation in binary64 *)

Section Binary64Facts.
Import PrimFloat.












End Binary64Facts.

(** ** The split, accumulate, join lifecycle of [Sum] *)

Section Ranges.
Context {A : Type}.

Lemma range_of_split (x : list A) (b m e : nat) :
  b <= m -> m <= e -> range_of x b e = range_of x b m ++ range_of x m e.
Proof.
  intros Hbm Hme. unfold range_of.
  replace (e - b) with ((m - b) + (e - m)) by lia.
  rewrite <- take_take_drop, drop_drop.
  replace (b + (m - b)) with m by lia. reflexivity.
Qed.

Lemma range_of_all (x : list A) : range_of x 0 (length x) = x.
Proof. unfold range_of. rewrite drop_0, Nat.sub_0_r. apply firstn_all. Qed.

Lemma covers_le (p : plan) (b e : nat) : covers p b e -> b <= e.
Proof.
  revert b e. induction p as [b' e'|p IHp q IHq|p IHp q IHq]; intros b e; cbn.
  - intros (_ & _ & Hbe). exact Hbe.
  - intros (m & Hp & Hq). apply IHp in Hp. apply IHq in Hq. lia.
  - intros (m & Hp & Hq). apply IHp in Hp. apply IHq in Hq. lia.
Qed.

End Ranges.

Section Lifecycle.
Context {A : Type} `{Scalar A}.

(** The carrier is a monoid: addition is exact. *)
Hypothesis add_assoc : forall a b c : A, add a (add b c) = add (add a b) c.
Hypothesis add_zero_l : forall a : A, add zero a = a.
Hypothesis add_zero_r : forall a : A, add a zero = a.

Lemma accumulate_total (l : list A) (init : A) :
  accumulate l init = add init (total l).
Proof using add_assoc add_zero_r.
  unfold accumulate. revert init.
  induction l as [|a l IH]; intros init; cbn.
  - symmetry. apply add_zero_r.
  - rewrite IH. symmetry. apply add_assoc.
Qed.

Lemma total_app (l k : list A) : total (l ++ k) = add (total l) (total k).
Proof using add_assoc add_zero_l.
  induction l as [|a l IH]; cbn.
  - symmetry. apply add_zero_l.
  - fold (total (l ++ k)). fold (total l). rewrite IH. apply add_assoc.
Qed.

Lemma Sum_call_value (w : Sum A) (b e : nat) :
  value (Sum_call w b e) = add (value w) (total (range_of (input w) b e)).
Proof using add_assoc add_zero_l add_zero_r.
  cbn. rewrite accumulate_total, add_zero_l. reflexivity.
Qed.

(** A plan over [b, e) adds the sum of that range to the worker's value
    and leaves its input alone. *)
Lemma parallelReduce_covers (p : plan) (b e : nat) (w : Sum A) :
  covers p b e ->
  parallelReduce p w
  = mkSum (input w) (add (value w) (total (range_of (input w) b e))).
Proof using add_assoc add_zero_l add_zero_r.
  revert b e w.
  induction p as [b' e'|p IHp q IHq|p IHp q IHq]; intros b e w; cbn [covers].
  - intros (-> & -> & _). cbn [parallelReduce]. unfold Sum_call.
    rewrite accumulate_total, add_zero_l. reflexivity.
  - intros (m & Hp & Hq). cbn [parallelReduce].
    rewrite (IHp b m) by assumption. rewrite (IHq m e) by assumption. cbn.
    rewrite (range_of_split (input w) b m e)
      by eauto using covers_le.
    rewrite total_app, add_assoc. reflexivity.
  - intros (m & Hp & Hq). cbn [parallelReduce].
    rewrite (IHp b m) by assumption. rewrite (IHq m e) by assumption.
    unfold join, Sum_split. cbn.
    rewrite (range_of_split (input w) b m e)
      by eauto using covers_le.
    rewrite total_app, add_zero_l, add_assoc. reflexivity.
Qed.

(** C10: in exact arithmetic, a new worker and a split worker start at 0;
    a call on [b, e) adds the sum of the elements of that range; a join
    adds the other worker's value; hence, for every plan whose leaf ranges
    tile [0, n), the value returned is the sum of all the elements, each
    counted once, which is also what the serial sum returns, whatever the
    plan. *)
Theorem Sum_lifecycle_invariant (x : list A) :
  value (Sum_new x) = zero
  /\ (forall w : Sum A, value (Sum_split w) = zero /\ input (Sum_split w) = input w)
  /\ (forall (w : Sum A) (b e : nat),
        value (Sum_call w b e) = add (value w) (total (range_of (input w) b e)))
  /\ (forall w rhs : Sum A, value (join w rhs) = add (value w) (value rhs))
  /\ (forall p : plan, covers p 0 (length x) ->
        parallelVectorSum p x = total x /\ parallelVectorSum p x = vectorSum x).
Proof using add_assoc add_zero_l add_zero_r.
  repeat split.
  - apply Sum_call_value.
  - unfold parallelVectorSum.
    rewrite (parallelReduce_covers p 0 (length x)) by assumption. cbn.
    rewrite range_of_all. apply add_zero_l.
  - unfold parallelVectorSum, vectorSum.
    rewrite (parallelReduce_covers p 0 (length x)) by assumption. cbn.
    rewrite range_of_all, accumulate_total. reflexivity.
Qed.

End Lifecycle.

Section LifecycleOnReals.
Local Open Scope R_scope.

Lemma Sum_lifecycle_invariant_witness :
  value (Sum_new [1; 2; 3]) = 0
  /\ (forall w : Sum R, value (Sum_split w) = 0 /\ input (Sum_split w) = input w)
  /\ (forall (w : Sum R) (b e : nat),
        value (Sum_call w b e) = value w + total (range_of (input w) b e))
  /\ (forall w rhs : Sum R, value (join w rhs) = value w + value rhs)
  /\ (forall p : plan, covers p 0 3 ->
        parallelVectorSum p [1; 2; 3] = total [1; 2; 3]
        /\ parallelVectorSum p [1; 2; 3] = vectorSum [1; 2; 3]).
Proof.
  refine (Sum_lifecycle_invariant (A := R) _ _ _ [1; 2; 3]).
  - intros a b c. cbn. lra.
  - intros a. cbn. lra.
  - intros a. cbn. lra.
Defined.

End LifecycleOnReals.

(** ** The sum of 1, ..., 8 in binary64 *)

Section FloatSum.

Lemma add_exact_upto_36 : add_exact_upto 36 = true.
Proof. vm_compute. reflexivity. Qed.

Lemma float_add_exact (i j : nat) :
  i + j <= 36 -> PrimFloat.add (F i) (F j) = F (i + j).
Proof.
  intros Hij. pose proof add_exact_upto_36 as Htab.
  unfold add_exact_upto in Htab.
  rewrite forallb_forall in Htab.
  assert (Hi : In i (seq 0 37)) by (apply in_seq; lia).
  assert (Hj : In j (seq 0 37)) by (apply in_seq; lia).
  specialize (Htab i Hi). rewrite forallb_forall in Htab.
  specialize (Htab j Hj).
  destruct (Nat.leb_spec (i + j) 36) as [_|Hgt]; [|lia].
  apply FloatAxioms.Leibniz.eqb_spec. exact Htab.
Qed.

(** Accumulating small naturals from a small natural is exact. *)
Lemma float_accumulate (l : list nat) (v : nat) :
  v + list_sum l <= 36 ->
  accumulate (map F l) (F v) = F (v + list_sum l).
Proof.
  unfold accumulate. revert v.
  induction l as [|a l IH]; intros v Hv; cbn [map fold_left].
  - cbn. now rewrite Nat.add_0_r.
  - change (list_sum (a :: l)) with (a + list_sum l) in *.
    change (@add PrimFloat.float Scalar_float) with PrimFloat.add in *.
    rewrite float_add_exact by lia. rewrite IH by lia.
    f_equal. lia.
Qed.

Lemma range_of_map (l : list nat) (b e : nat) :
  range_of (map F l) b e = map F (range_of l b e).
Proof.
  unfold range_of.
  change (map F l) with (F <$> l).
  rewrite <- fmap_drop, <- fmap_take. reflexivity.
Qed.

Lemma float_parallelReduce (l : list nat) (p : plan) (b e : nat)
    (w : Sum PrimFloat.float) (v : nat) :
  covers p b e ->
  input w = map F l -> value w = F v ->
  v + list_sum (range_of l b e) <= 36 ->
  parallelReduce p w = mkSum (map F l) (F (v + list_sum (range_of l b e))).
Proof.
  revert b e w v.
  induction p as [b' e'|p IHp q IHq|p IHp q IHq];
    intros b e w v Hcov Hin Hval Hle; cbn [covers] in Hcov.
  - destruct Hcov as (-> & -> & _). cbn [parallelReduce]. unfold Sum_call.
    rewrite Hin, Hval, range_of_map.
    change (@zero PrimFloat.float Scalar_float) with (F 0).
    rewrite float_accumulate by (cbn; lia). cbn [Nat.add].
    change (@add PrimFloat.float Scalar_float) with PrimFloat.add.
    rewrite float_add_exact by lia. reflexivity.
  - destruct Hcov as (m & Hp & Hq). cbn [parallelReduce].
    pose proof (covers_le _ _ _ Hp) as Hbm.
    pose proof (covers_le _ _ _ Hq) as Hme.
    rewrite (range_of_split l b m e), list_sum_app in * by assumption.
    rewrite (IHp b m w v) by (assumption || lia).
    rewrite (IHq m e _ (v + list_sum (range_of l b m)))
      by (assumption || reflexivity || lia).
    do 2 f_equal. lia.
  - destruct Hcov as (m & Hp & Hq). cbn [parallelReduce].
    pose proof (covers_le _ _ _ Hp) as Hbm.
    pose proof (covers_le _ _ _ Hq) as Hme.
    rewrite (range_of_split l b m e), list_sum_app in * by assumption.
    rewrite (IHp b m w v) by (assumption || lia).
    rewrite (IHq m e (Sum_split w) 0)
      by (assumption || reflexivity || (cbn; lia)).
    unfold join. cbn [input value Nat.add].
    change (@add PrimFloat.float Scalar_float) with PrimFloat.add.
    rewrite float_add_exact by lia.
    do 2 f_equal. lia.
Qed.

End FloatSum.

Section OneToEight.
Import PrimFloat.

(** C9: summing 1, ..., 8 in binary64 under any plan that tiles [0, 8),
    with four workers or any other number, however the range is split and
    in whatever shape the joins are nested, returns exactly 36, which is
    what the serial left-to-right sum returns. *)
Theorem parallelVectorSum_one_to_eight (p : plan) :
  covers p 0 8 ->
  parallelVectorSum p [1; 2; 3; 4; 5; 6; 7; 8]%float = 36%float
  /\ vectorSum [1; 2; 3; 4; 5; 6; 7; 8]%float = 36%float.
Proof.
  intros Hcov. split; [|vm_compute; reflexivity].
  unfold parallelVectorSum.
  rewrite (float_parallelReduce (seq 1 8) p 0 8 _ 0 Hcov).
  - reflexivity.
  - reflexivity.
  - reflexivity.
  - cbn. lia.
Qed.

Lemma four_workers_count : workers four_workers = 4%nat.
Proof. reflexivity. Qed.

Lemma parallelVectorSum_one_to_eight_witness :
  parallelVectorSum four_workers [1; 2; 3; 4; 5; 6; 7; 8]%float = 36%float
  /\ vectorSum [1; 2; 3; 4; 5; 6; 7; 8]%float = 36%float.
Proof.
  apply parallelVectorSum_one_to_eight.
  unfold four_workers. cbn.
  exists 4%nat. split; [exists 2%nat | exists 6%nat]; repeat split; lia.
Defined.

End OneToEight.

(** * Further properties of the code *)

(** ** The evaluator and the sizes of its arguments *)

Section Sizes.
Local Open Scope R_scope.










End Sizes.

(** ** More on finite sums *)

Section MoreSums.
Local Open Scope R_scope.

Lemma Rsum_swap (n m : nat) (f : nat -> nat -> R) :
  Rsum n (fun i => Rsum m (fun j => f i j))
  = Rsum m (fun j => Rsum n (fun i => f i j)).
Proof.
  revert f. induction n as [|n IH]; intros f; cbn.
  - symmetry. apply Rsum_zero. reflexivity.
  - rewrite Rsum_plus, IH. reflexivity.
Qed.

Lemma Rsum_delta_l (n i : nat) (f : nat -> R) :
  (i < n)%nat ->
  Rsum n (fun p => (if (i =? p)%nat then 1 else 0) * f p) = f i.
Proof.
  revert i f. induction n as [|n IH]; intros i f Hi; [lia|]. cbn [Rsum].
  destruct i as [|i]; cbn [Nat.eqb].
  - rewrite Rsum_zero by (intros; ring). ring.
  - rewrite (IH i (fun p => f (S p))) by lia. ring.
Qed.

Lemma Rsum_delta_r (n j : nat) (f : nat -> R) :
  (j < n)%nat ->
  Rsum n (fun p => f p * (if (p =? j)%nat then 1 else 0)) = f j.
Proof.
  intros Hj. rewrite <- (Rsum_delta_l n j f Hj).
  apply Rsum_ext. intros p _. rewrite (Nat.eqb_sym p j). ring.
Qed.

(** Products of three matrices may be bracketed either way. *)
Lemma Rsum_assoc (k : nat) (A B C : nat -> nat -> R) (i j : nat) :
  Rsum k (fun p => Rsum k (fun q => A i q * B q p) * C p j)
  = Rsum k (fun q => A i q * Rsum k (fun p => B q p * C p j)).
Proof.
  transitivity (Rsum k (fun p => Rsum k (fun q => A i q * B q p * C p j))).
  - apply Rsum_ext. intros p _. now rewrite Rsum_mult_r.
  - rewrite Rsum_swap. apply Rsum_ext. intros q _.
    rewrite <- Rsum_mult_l. apply Rsum_ext. intros p _. ring.
Qed.

(** [arma::sum] over a vector built from the indices. *)
Lemma sum_map_seq (f : nat -> R) (a n : nat) :
  Arma.sum (map f (seq a n)) = Rsum n (fun i => f (a + i)%nat).
Proof.
  revert a. induction n as [|n IH]; intros a; cbn; [reflexivity|].
  unfold Arma.sum in IH. rewrite IH, Nat.add_0_r. f_equal.
  apply Rsum_ext. intros i _. f_equal. lia.
Qed.

Lemma sum_schur_map (g : nat -> R) (l : list nat) :
  Arma.sum (schur (map g l) (map g l)) = Arma.sum (map (fun r => g r * g r) l).
Proof.
  induction l as [|a l IH]; cbn; [reflexivity|].
  unfold Arma.sum, schur in IH. now rewrite IH.
Qed.

End MoreSums.

(** ** The triangular inverse *)

Section TriangularInverse.
Local Open Scope R_scope.

Variables (k : nat) (T V : nat -> nat -> R).
Hypothesis T_upper : forall i j, (j < i)%nat -> T i j = 0.
Hypothesis T_inverse : inv_upper_rec k T = Returns V.

(** The inverse is upper triangular and its diagonal holds the
    reciprocals. *)
Lemma inv_upper_rec_shape :
  (forall i j, (j < i)%nat -> V i j = 0)
  /\ (forall i, (i < k)%nat -> V i i = / T i i).
Proof using T_inverse.
  clear T_upper. revert T V T_inverse.
  induction k as [|n IH]; intros T V Hinv.
  - injection Hinv as <-. split; [reflexivity | intros; lia].
  - cbn in Hinv.
    destruct (Req_dec_T (T O O) 0) as [|Hne]; [discriminate|].
    destruct (inv_upper_rec n _) as [V'| |] eqn:HV'; try discriminate.
    cbn in Hinv. injection Hinv as <-.
    apply IH in HV' as [Hup Hdiag]. split.
    + intros [|i] [|j] Hij; try lia; [reflexivity | apply Hup; lia].
    + intros [|i] Hi; [reflexivity | apply Hdiag; lia].
Qed.

(** It is a left inverse as well. *)
Lemma inv_upper_rec_left_inverse (i j : nat) :
  (i < k)%nat -> (j < k)%nat ->
  Rsum k (fun p => V i p * T p j) = if (i =? j)%nat then 1 else 0.
Proof using T_upper T_inverse.
  revert T V T_upper T_inverse i j.
  induction k as [|n IH]; intros T V Hup Hinv i j Hi Hj; [lia|].
  cbn in Hinv.
  destruct (Req_dec_T (T O O) 0) as [|Hne]; [discriminate|].
  destruct (inv_upper_rec n _) as [V'| |] eqn:HV'; try discriminate.
  cbn in Hinv. injection Hinv as <-.
  pose proof (IH _ _ (fun i j Hij => Hup (S i) (S j) ltac:(lia)) HV') as IH'.
  cbn [Rsum]. destruct i as [|i], j as [|j]; cbn [Nat.eqb].
  - rewrite Rsum_zero; [field; exact Hne|].
    intros p _. rewrite (Hup (S p) O) by lia. ring.
  - assert (E : Rsum n (fun p => Rsum n (fun q => T O (S q) * V' q p)
                                  * T (S p) (S j)) = T O (S j)).
    { etransitivity;
        [exact (Rsum_assoc n (fun _ q => T O (S q)) V'
                  (fun p j' => T (S p) (S j')) O j)|].
      cbv beta.
      rewrite (Rsum_ext n _ (fun q => T O (S q) * (if (q =? j)%nat then 1 else 0))).
      - apply (Rsum_delta_r n j (fun q => T O (S q))). lia.
      - intros q Hq. now rewrite IH' by lia. }
    transitivity
      (/ T O O * T O (S j)
       + - / T O O * Rsum n (fun p => Rsum n (fun q => T O (S q) * V' q p)
                                       * T (S p) (S j))).
    + f_equal. rewrite <- Rsum_mult_l.
      apply Rsum_ext. intros p _. field. exact Hne.
    + rewrite E. field. exact Hne.
  - rewrite Rsum_zero; [ring|].
    intros p _. rewrite (Hup (S p) O) by lia. ring.
  - rewrite IH' by lia. ring.
Qed.

End TriangularInverse.

(** ** What the whitening factor is *)

Section Whitened.
Local Open Scope R_scope.

Variables (k : nat) (A U V : nat -> nat -> R).
Hypothesis A_sym : sym_fun k A.
Hypothesis A_chol : chol_rec k A = Returns U.
Hypothesis U_inv : inv_upper_rec k (upper_part U) = Returns V.

Lemma upper_part_chol (i j : nat) : upper_part U i j = U i j.
Proof using A_sym A_chol.
  unfold upper_part. destruct (Nat.ltb_spec j i) as [Hji|Hji]; [|reflexivity].
  symmetry. now apply (chol_rec_factor k A U A_sym A_chol).
Qed.

Lemma upper_part_upper (i j : nat) : (j < i)%nat -> upper_part U i j = 0.
Proof.
  intros Hji. unfold upper_part.
  destruct (Nat.ltb_spec j i); [reflexivity | lia].
Qed.

Lemma chol_inverse_right (i j : nat) :
  (i < k)%nat -> (j < k)%nat ->
  Rsum k (fun p => U i p * V p j) = if (i =? j)%nat then 1 else 0.
Proof using A_sym A_chol U_inv.
  intros Hi Hj.
  rewrite <- (inv_upper_rec_inverse k (upper_part U) V upper_part_upper U_inv i j)
    by assumption.
  apply Rsum_ext. intros p _. now rewrite upper_part_chol.
Qed.

Lemma chol_inverse_left (i j : nat) :
  (i < k)%nat -> (j < k)%nat ->
  Rsum k (fun p => V i p * U p j) = if (i =? j)%nat then 1 else 0.
Proof using A_sym A_chol U_inv.
  intros Hi Hj.
  rewrite <- (inv_upper_rec_left_inverse k (upper_part U) V upper_part_upper
                U_inv i j) by assumption.
  apply Rsum_ext. intros p _. now rewrite upper_part_chol.
Qed.

Lemma gram_sym (i j : nat) : gram k V i j = gram k V j i.
Proof. unfold gram. apply Rsum_ext. intros r _. ring. Qed.

(** [U (V V^T) = V^T] *)
Lemma chol_gram (q j : nat) :
  (q < k)%nat -> (j < k)%nat ->
  Rsum k (fun p => U q p * gram k V p j) = V j q.
Proof using A_sym A_chol U_inv.
  intros Hq Hj. unfold gram.
  etransitivity;
    [symmetry; exact (Rsum_assoc k U V (fun r j' => V j' r) q j)|].
  cbv beta.
  rewrite (Rsum_ext k _ (fun p => (if (q =? p)%nat then 1 else 0) * V j p)).
  - apply (Rsum_delta_l k q (fun p => V j p)). exact Hq.
  - intros p Hp. now rewrite chol_inverse_right by assumption.
Qed.

(** [V V^T] is the inverse of [A = U^T U]. *)
Lemma gram_is_inverse : is_inverse k A (gram k V).
Proof using A_sym A_chol U_inv.
  assert (Hright : forall i j, (i < k)%nat -> (j < k)%nat ->
            Rsum k (fun p => A i p * gram k V p j)
            = if (i =? j)%nat then 1 else 0).
  { intros i j Hi Hj.
    destruct (chol_rec_factor k A U A_sym A_chol) as (Hfac & _ & _).
    rewrite (Rsum_ext k _
               (fun p => Rsum k (fun q => U q i * U q p) * gram k V p j))
      by (intros p Hp; now rewrite Hfac by assumption).
    etransitivity;
      [exact (Rsum_assoc k (fun i' q => U q i') U (gram k V) i j)|].
    cbv beta.
    rewrite (Rsum_ext k _ (fun q => V j q * U q i))
      by (intros q Hq; rewrite chol_gram by assumption; ring).
    rewrite chol_inverse_left by assumption.
    now rewrite (Nat.eqb_sym j i). }
  intros i j Hi Hj. split; [now apply Hright|].
  rewrite (Nat.eqb_sym i j), <- (Hright j i Hj Hi).
  apply Rsum_ext. intros p Hp.
  rewrite (gram_sym i p), (A_sym p j) by assumption. ring.
Qed.

(** The squared norm of the whitened residual is the quadratic form of
    the inverse. *)
Lemma whitened_norm (d : nat -> R) :
  Rsum k (fun r => Rsum k (fun j => V j r * d j) * Rsum k (fun j => V j r * d j))
  = quad_form k (gram k V) d.
Proof.
  unfold quad_form, gram.
  transitivity
    (Rsum k (fun r => Rsum k (fun i => Rsum k (fun j =>
       d i * (V i r * V j r) * d j)))).
  - apply Rsum_ext. intros r _.
    rewrite <- Rsum_mult_r. apply Rsum_ext. intros i _.
    rewrite <- Rsum_mult_l. apply Rsum_ext. intros j _. ring.
  - rewrite Rsum_swap. apply Rsum_ext. intros i _.
    rewrite Rsum_swap. apply Rsum_ext. intros j _.
    rewrite <- Rsum_mult_l, <- Rsum_mult_r. reflexivity.
Qed.

End Whitened.

(** ** The value of the log-density *)

Section LogDensity.
Local Open Scope R_scope.

Lemma whitening_factors (sigma rooti : mat) :
  whitening sigma = Returns rooti ->
  n_rows sigma = n_cols sigma
  /\ exists U V,
       chol_rec (n_rows sigma) (at_ sigma) = Returns U
       /\ inv_upper_rec (n_rows sigma) (upper_part U) = Returns V
       /\ rooti = mkMat (n_cols sigma) (n_rows sigma) (fun i j => V j i).
Proof.
  unfold whitening, chol, inv_upper. cbn -[Nat.ltb].
  destruct (Nat.eqb_spec (n_rows sigma) (n_cols sigma)) as [Hsq|];
    cbn -[Nat.ltb]; [|discriminate].
  destruct (chol_rec _ _) as [U| |] eqn:HU; cbn -[Nat.ltb]; try discriminate.
  destruct (Nat.eqb_spec (n_rows sigma) (n_cols sigma)); [|contradiction].
  cbn -[Nat.ltb].
  destruct (inv_upper_rec _ _) as [V| |] eqn:HV; cbn -[Nat.ltb];
    try discriminate.
  intros [= <-]. split; [exact Hsq|]. exists U, V. repeat split. exact HV.
Qed.

Lemma Rsum_opp (n : nat) (f : nat -> R) : Rsum n (fun i => - f i) = - Rsum n f.
Proof.
  rewrite (Rsum_ext n _ (fun i => -1 * f i)) by (intros; ring).
  rewrite Rsum_mult_l. ring.
Qed.

Section Factor.
Variables (sigma : mat) (U V : nat -> nat -> R).
Hypothesis sigma_sym : symmetric sigma.
Hypothesis sigma_square : n_rows sigma = n_cols sigma.
Hypothesis sigma_chol : chol_rec (n_rows sigma) (at_ sigma) = Returns U.
Hypothesis U_inv : inv_upper_rec (n_rows sigma) (upper_part U) = Returns V.

Let rooti : mat := mkMat (n_cols sigma) (n_rows sigma) (fun i j => V j i).

Lemma rootisum_chol :
  rootisum rooti = - Rsum (n_rows sigma) (fun i => ln (U i i)).
Proof using sigma_sym sigma_square sigma_chol U_inv.
  unfold rootisum, diag, rooti. cbn [n_rows n_cols at_].
  rewrite <- sigma_square, Nat.min_id, map_map, sum_map_seq, <- Rsum_opp.
  apply Rsum_ext. intros i Hi. cbn [Nat.add].
  destruct (inv_upper_rec_shape _ _ _ U_inv) as [_ Hdiag].
  rewrite Hdiag by assumption.
  rewrite (upper_part_chol _ _ _ sigma_sym sigma_chol).
  apply ln_Rinv.
  now apply (chol_rec_factor _ _ _ sigma_sym sigma_chol).
Qed.

Lemma log_density_whitened (x : mat) (mean : vec) (cst rsum : R) (i : nat) :
  log_density x mean rooti cst rsum i
  = cst - 0.5 * quad_form (n_rows sigma) (gram (n_rows sigma) V)
                  (residual x mean i) + rsum.
Proof using sigma_square.
  unfold log_density, rooti. cbn [n_rows n_cols at_].
  rewrite sum_schur_map, <- sigma_square, sum_map_seq.
  rewrite <- whitened_norm. reflexivity.
Qed.

End Factor.

(** The log-densities of a valid call. *)
Lemma dmvnrm_arma_log_densities (x : mat) (mean : vec) (sigma : mat) :
  valid_dims x mean sigma -> symmetric sigma -> positive_definite sigma ->
  exists U W,
    chol_rec (n_rows sigma) (at_ sigma) = Returns U
    /\ (forall i, (i < n_rows sigma)%nat -> 0 < U i i)
    /\ is_inverse (n_rows sigma) (at_ sigma) W
    /\ dmvnrm_arma x mean sigma true
       = Returns (map (fun i =>
                         constants (Z.of_nat (n_cols x))
                         - 0.5 * quad_form (n_rows sigma) W (residual x mean i)
                         + - Rsum (n_rows sigma) (fun j => ln (U j j)))
                    (seq 0 (n_rows x))).
Proof.
  intros (Hmean & Hsr & Hsc) Hsym Hpd.
  destruct (whitening_returns sigma (proj1 Hpd) Hsym Hpd) as [rooti Hw].
  destruct (whitening_factors _ _ Hw) as (Hsq & U & V & HU & HV & ->).
  exists U, (gram (n_rows sigma) V).
  split; [exact HU|].
  split; [now apply (chol_rec_factor _ _ _ Hsym HU)|].
  split; [now apply (gram_is_inverse _ _ U)|].
  unfold dmvnrm_arma. rewrite Hw. cbn [mbind outcome_bind].
  rewrite for_loop_writes by (cbn; congruence).
  cbn [mbind outcome_bind finish].
  rewrite (write_all_permutation _ _ (n_rows x))
    by auto using length_replicate.
  f_equal. apply map_ext. intros i.
  rewrite (log_density_whitened sigma V Hsq).
  now rewrite (rootisum_chol sigma U V Hsym Hsq HU HV).
Qed.

End LogDensity.

Section LogDensityTheorems.
Local Open Scope R_scope.

(** X5: for every call with matching sizes and a symmetric positive
    definite covariance [sigma], the evaluator returns on the log scale,
    for each row [i],
    [constants - 0.5 * d^T W d - sum_j log (U j j)]
    where [d] is the row minus the mean, [U] is the Cholesky factor of
    [sigma] (upper triangular, positive diagonal, [U^T U = sigma]) and [W]
    is the inverse of [sigma]: the squared norm of the whitened row is the
    Mahalanobis distance, and [rootisum] is minus the sum of the logs of
    the Cholesky diagonal. *)
Theorem dmvnrm_arma_log_density_value (x : mat) (mean : vec) (sigma : mat) :
  valid_dims x mean sigma -> symmetric sigma -> positive_definite sigma ->
  exists U W,
    (forall i j, (i < n_rows sigma)%nat -> (j < n_rows sigma)%nat ->
       Rsum (n_rows sigma) (fun p => U p i * U p j) = at_ sigma i j)
    /\ (forall i, (i < n_rows sigma)%nat -> 0 < U i i)
    /\ (forall i j, (j < i)%nat -> U i j = 0)
    /\ is_inverse (n_rows sigma) (at_ sigma) W
    /\ dmvnrm_arma x mean sigma true
       = Returns (map (fun i =>
                         constants (Z.of_nat (n_cols x))
                         - 0.5 * quad_form (n_rows sigma) W (residual x mean i)
                         + - Rsum (n_rows sigma) (fun j => ln (U j j)))
                    (seq 0 (n_rows x))).
Proof.
  intros Hdims Hsym Hpd.
  destruct (dmvnrm_arma_log_densities x mean sigma Hdims Hsym Hpd)
    as (U & W & HU & _ & HW & Hval).
  destruct (chol_rec_factor _ _ _ Hsym HU) as (Hfac & Hdiag & Hlow).
  exists U, W. auto 6.
Qed.

Lemma dmvnrm_arma_log_density_value_witness :
  exists U W,
    (forall i j, (i < 2)%nat -> (j < 2)%nat ->
       Rsum 2 (fun p => U p i * U p j) = at_ (mat_of_rows [[1; 0]; [0; 1]]) i j)
    /\ (forall i, (i < 2)%nat -> 0 < U i i)
    /\ (forall i j, (j < i)%nat -> U i j = 0)
    /\ is_inverse 2 (at_ (mat_of_rows [[1; 0]; [0; 1]])) W
    /\ dmvnrm_arma (mat_of_rows [[3; 4]]) [1; 2] (mat_of_rows [[1; 0]; [0; 1]]) true
       = Returns (map (fun i =>
                         constants 2
                         - 0.5 * quad_form 2 W
                                   (residual (mat_of_rows [[3; 4]]) [1; 2] i)
                         + - Rsum 2 (fun j => ln (U j j)))
                    (seq 0 1)).
Proof.
  apply (dmvnrm_arma_log_density_value
           (mat_of_rows [[3; 4]]) [1; 2] (mat_of_rows [[1; 0]; [0; 1]])).
  - repeat split; reflexivity.
  - intros i j Hi Hj. cbn in Hi, Hj.
    destruct i as [|[|i]]; destruct j as [|[|j]]; try lia; reflexivity.
  - split; [reflexivity|].
    intros v (i & Hi & Hv). cbn in Hi. unfold quad_form. cbn.
    pose proof (Rle_0_sqr (v 0%nat)) as H0.
    pose proof (Rle_0_sqr (v 1%nat)) as H1.
    apply Rsqr_pos_lt in Hv. unfold Rsqr in *.
    destruct i as [|[|i]]; [lra | lra | lia].
Defined.

(** X6: when moreover the dimension [k] is even, the constant is
    [-(k/2) log(2 pi)] with the real half, and the evaluator returns the
    log-density of the multivariate normal distribution,
    [-(k/2) log(2 pi) - sum_j log (U j j) - 0.5 * d^T W d],
    with [U] the Cholesky factor of [sigma] (upper triangular, positive
    diagonal, [U^T U = sigma]) and [W] the inverse of [sigma]. *)
Theorem dmvnrm_arma_even_dimension (x : mat) (mean : vec) (sigma : mat) :
  valid_dims x mean sigma -> symmetric sigma -> positive_definite sigma ->
  Nat.Even (n_cols x) ->
  exists U W,
    (forall i j, (i < n_rows sigma)%nat -> (j < n_rows sigma)%nat ->
       Rsum (n_rows sigma) (fun p => U p i * U p j) = at_ sigma i j)
    /\ (forall i, (i < n_rows sigma)%nat -> 0 < U i i)
    /\ (forall i j, (j < i)%nat -> U i j = 0)
    /\ is_inverse (n_rows sigma) (at_ sigma) W
    /\ dmvnrm_arma x mean sigma true
       = Returns (map (fun i =>
                         - (INR (n_cols x) / 2) * ln (2 * PI)
                         - Rsum (n_rows sigma) (fun j => ln (U j j))
                         - 0.5 * quad_form (n_rows sigma) W (residual x mean i))
                    (seq 0 (n_rows x))).
Proof.
  intros Hdims Hsym Hpd [m Hm].
  destruct (dmvnrm_arma_log_densities x mean sigma Hdims Hsym Hpd)
    as (U & W & HU & _ & HW & Hval).
  destruct (chol_rec_factor _ _ _ Hsym HU) as (Hfac & Hdiag & Hlow).
  exists U, W. repeat split; try assumption.
  - now apply HW.
  - now apply HW.
  - assert (Hc : constants (Z.of_nat (n_cols x))
                 = - (INR (n_cols x) / 2) * ln (2 * PI)).
    { rewrite INR_IZR_INZ, Hm, Nat2Z.inj_mul. change (Z.of_nat 2) with 2%Z.
      apply constants_even. lia. }
    rewrite Hval. f_equal. apply map_ext. intros i. rewrite Hc. lra.
Qed.

Lemma dmvnrm_arma_even_dimension_witness :
  exists U W,
    (forall i j, (i < 2)%nat -> (j < 2)%nat ->
       Rsum 2 (fun p => U p i * U p j) = at_ (mat_of_rows [[1; 0]; [0; 1]]) i j)
    /\ (forall i, (i < 2)%nat -> 0 < U i i)
    /\ (forall i j, (j < i)%nat -> U i j = 0)
    /\ is_inverse 2 (at_ (mat_of_rows [[1; 0]; [0; 1]])) W
    /\ dmvnrm_arma (mat_of_rows [[3; 4]]) [1; 2] (mat_of_rows [[1; 0]; [0; 1]]) true
       = Returns (map (fun i =>
                         - (INR 2 / 2) * ln (2 * PI)
                         - Rsum 2 (fun j => ln (U j j))
                         - 0.5 * quad_form 2 W
                                   (residual (mat_of_rows [[3; 4]]) [1; 2] i))
                    (seq 0 1)).
Proof.
  apply (dmvnrm_arma_even_dimension
           (mat_of_rows [[3; 4]]) [1; 2] (mat_of_rows [[1; 0]; [0; 1]])).
  - repeat split; reflexivity.
  - intros i j Hi Hj. cbn in Hi, Hj.
    destruct i as [|[|i]]; destruct j as [|[|j]]; try lia; reflexivity.
  - split; [reflexivity|].
    intros v (i & Hi & Hv). cbn in Hi. unfold quad_form. cbn.
    pose proof (Rle_0_sqr (v 0%nat)) as H0.
    pose proof (Rle_0_sqr (v 1%nat)) as H1.
    apply Rsqr_pos_lt in Hv. unfold Rsqr in *.
    destruct i as [|[|i]]; [lra | lra | lia].
  - exists 1%nat. reflexivity.
Defined.

End LogDensityTheorems.

(** ** The Mahalanobis form and its OpenMP variant *)

Section Centring.
Local Open Scope R_scope.

Lemma mat_ext (A B : mat) :
  n_rows A = n_rows B -> n_cols A = n_cols B ->
  (forall i j, at_ A i j = at_ B i j) -> A = B.
Proof.
  destruct A as [ra ca fa], B as [rb cb fb]. cbn. intros -> -> Hf.
  f_equal. extensionality i. extensionality j. apply Hf.
Qed.

Lemma set_rows_dims (f : nat -> vec) (l : list nat) (A : mat) :
  n_rows (set_rows f l A) = n_rows A /\ n_cols (set_rows f l A) = n_cols A.
Proof.
  revert A. induction l as [|i l IH]; intros A; cbn; [split; reflexivity|].
  destruct (IH (set_row A i (f i))) as [-> ->]. split; reflexivity.
Qed.

Lemma set_rows_at (f : nat -> vec) (l : list nat) (A : mat) (i j : nat) :
  at_ (set_rows f l A) i j
  = if decide (i ∈ l) then nth j (f i) 0 else at_ A i j.
Proof.
  revert A. induction l as [|a l IH]; intros A; cbn [set_rows].
  - destruct (decide (i ∈ [])) as [Hin|_]; [inversion Hin | reflexivity].
  - rewrite IH. cbn [set_row at_].
    destruct (decide (i ∈ l)) as [Hin|Hnin].
    + destruct (decide (i ∈ a :: l)) as [_|Hn]; [reflexivity|].
      exfalso. apply Hn. now right.
    + destruct (Nat.eqb_spec i a) as [->|Hne].
      * destruct (decide (a ∈ a :: l)) as [_|Hn]; [reflexivity|].
        exfalso. apply Hn. now left.
      * destruct (decide (i ∈ a :: l)) as [Hin|_]; [|reflexivity].
        apply elem_of_cons in Hin as [?|?]; contradiction.
Qed.

(** The rows may be written in any order. *)
Lemma set_rows_permutation (f : nat -> vec) (l l' : list nat) (A : mat) :
  Permutation l l' -> set_rows f l A = set_rows f l' A.
Proof.
  intros Hperm. apply mat_ext.
  - destruct (set_rows_dims f l A) as [-> _].
    destruct (set_rows_dims f l' A) as [-> _]. reflexivity.
  - destruct (set_rows_dims f l A) as [_ ->].
    destruct (set_rows_dims f l' A) as [_ ->]. reflexivity.
  - intros i j. rewrite !set_rows_at.
    destruct (decide (i ∈ l)) as [Hin|Hnin];
      destruct (decide (i ∈ l')) as [Hin'|Hnin']; try reflexivity.
    + exfalso. apply Hnin'. now rewrite <- Hperm.
    + exfalso. apply Hnin. now rewrite Hperm.
Qed.

Section Rows.
Variables (x : mat) (center : vec).
Hypothesis center_size : n_cols x = length center.

Lemma center_row_returns (i : nat) (x_cen : mat) :
  center_row x center i x_cen
  = Returns (set_row x_cen i (zip_with Rminus (row x i) center)).
Proof using center_size.
  unfold center_row, vec_minus, row.
  rewrite length_map, length_seq, center_size, Nat.eqb_refl. reflexivity.
Qed.

Lemma for_loop_centres (l : list nat) (x_cen : mat) :
  for_loop l (center_row x center) x_cen
  = Returns (set_rows (fun i => zip_with Rminus (row x i) center) l x_cen).
Proof using center_size.
  revert x_cen. induction l as [|i l IH]; intros x_cen; cbn; [reflexivity|].
  rewrite center_row_returns. cbn. apply IH.
Qed.

Lemma omp_for_centres (s : schedule) (x_cen : mat) :
  omp_for s (center_row x center) x_cen
  = Returns (set_rows (fun i => zip_with Rminus (row x i) center)
               (map snd s) x_cen).
Proof using center_size.
  revert x_cen. induction s as [|[t i] s IH]; intros x_cen; cbn; [reflexivity|].
  rewrite center_row_returns. apply IH.
Qed.

End Rows.

End Centring.

Section MahalanobisTheorems.
Local Open Scope R_scope.

Variable inv : mat -> outcome mat.
Variable eig_sym : mat -> outcome vec.

Lemma Mahalanobis_mc_serial (s : schedule) (x : mat) (center : vec) (cov : mat)
    (cores : Z) (rt : omp_runtime) :
  n_cols x = length center ->
  Permutation (map snd s) (seq 0 (n_rows x)) ->
  Mahalanobis_mc inv s x center cov cores rt
  = (Mahalanobis inv x center cov, omp_set_num_threads cores rt).
Proof.
  intros Hsize Hperm. unfold Mahalanobis_mc, Mahalanobis. f_equal.
  change (fun (i : nat) (x_cen : mat) =>
            d ← vec_minus (row x i) center; Returns (set_row x_cen i d))
    with (center_row x center).
  rewrite omp_for_centres, for_loop_centres by assumption.
  now rewrite (set_rows_permutation _ _ _ _ Hperm).
Qed.

(** X7: with a mean as long as the rows and any schedule that runs every
    row once on the [W >= 1] threads, [Mahalanobis_mc] and
    [dmvnorm_arma_mc] return what [Mahalanobis] and [dmvnorm_arma] return,
    and leave the process-wide thread count at [W]. *)
Theorem dmvnorm_arma_mc_agrees_with_serial (s : schedule) (x : mat) (mean : vec)
    (sigma : mat) (log : bool) (W : Z) (rt : omp_runtime) :
  (1 <= W)%Z -> n_cols x = length mean ->
  valid_schedule W (n_rows x) s ->
  Mahalanobis_mc inv s x mean sigma W rt
  = (Mahalanobis inv x mean sigma, {| nthreads_var := W |})
  /\ dmvnorm_arma_mc inv eig_sym s x mean sigma log W rt
     = (dmvnorm_arma inv eig_sym x mean sigma log, {| nthreads_var := W |}).
Proof.
  intros HW Hsize [_ Hperm].
  assert (Hrt : omp_set_num_threads W rt = {| nthreads_var := W |}).
  { unfold omp_set_num_threads. destruct (Z.ltb_spec 0 W); [reflexivity | lia]. }
  pose proof (Mahalanobis_mc_serial s x mean sigma W rt Hsize Hperm) as HM.
  rewrite Hrt in HM. split; [exact HM|].
  unfold dmvnorm_arma_mc. rewrite HM. reflexivity.
Qed.

End MahalanobisTheorems.

Section MahalanobisWitness.
Local Open Scope R_scope.

Lemma dmvnorm_arma_mc_agrees_with_serial_witness :
  Mahalanobis_mc inv_diagonal [(1, 1); (0, 0)]%nat (mat_of_rows [[0]; [1]]) [0]
    (mat_of_rows [[1]]) 2 {| nthreads_var := 8 |}
  = (Mahalanobis inv_diagonal (mat_of_rows [[0]; [1]]) [0] (mat_of_rows [[1]]),
     {| nthreads_var := 2 |})
  /\ dmvnorm_arma_mc inv_diagonal eig_sym_diagonal [(1, 1); (0, 0)]%nat
       (mat_of_rows [[0]; [1]]) [0] (mat_of_rows [[1]]) false 2
       {| nthreads_var := 8 |}
     = (dmvnorm_arma inv_diagonal eig_sym_diagonal (mat_of_rows [[0]; [1]]) [0]
          (mat_of_rows [[1]]) false,
        {| nthreads_var := 2 |}).
Proof.
  apply dmvnorm_arma_mc_agrees_with_serial.
  - lia.
  - reflexivity.
  - split.
    + repeat constructor; cbn; lia.
    + cbn. apply perm_swap.
Defined.

End MahalanobisWitness.

Section MahalanobisValue.
Local Open Scope R_scope.

Variable inv : mat -> outcome mat.

Lemma Mahalanobis_quadratic_forms (x : mat) (center : vec) (cov Vi : mat) :
  n_cols x = length center ->
  inv cov = Returns Vi ->
  n_rows Vi = n_cols x -> n_cols Vi = n_cols x ->
  Mahalanobis inv x center cov
  = Returns (map (fun i => quad_form (n_cols x) (at_ Vi) (residual x center i))
               (seq 0 (n_rows x))).
Proof.
  intros Hsize Hinv Hr Hc. unfold Mahalanobis.
  change (fun (i : nat) (x_cen : mat) =>
            d ← vec_minus (row x i) center; Returns (set_row x_cen i d))
    with (center_row x center).
  rewrite for_loop_centres by assumption. cbn [mbind outcome_bind].
  rewrite Hinv. cbn [mbind outcome_bind].
  set (f := fun i => zip_with Rminus (row x i) center).
  set (Xc := set_rows f (seq 0 (n_rows x)) _).
  destruct (set_rows_dims f (seq 0 (n_rows x))
              (mkMat (n_rows x) (n_cols x) (fun _ _ => 0))) as [HXr HXc].
  fold Xc in HXr, HXc. cbn in HXr, HXc.
  unfold mat_mul. rewrite HXc, Hr, Nat.eqb_refl. cbn [mbind outcome_bind].
  unfold schur_mat. cbn [n_rows n_cols].
  rewrite Hc, HXc, !Nat.eqb_refl. cbn [andb mbind outcome_bind].
  unfold row_sums. cbn [n_rows n_cols at_]. rewrite HXr.
  f_equal. apply map_ext_in. intros i Hi. apply in_seq in Hi.
  assert (HX : forall j, at_ Xc i j = residual x center i j).
  { intros j. unfold Xc. rewrite set_rows_at.
    destruct (decide (i ∈ seq 0 (n_rows x))) as [_|Hn]; [reflexivity|].
    exfalso. apply Hn, elem_of_seq. lia. }
  unfold quad_form.
  rewrite (Rsum_ext _ _
             (fun j => Rsum (n_cols x)
                         (fun p => residual x center i p * at_ Vi p j
                                   * residual x center i j))).
  - apply Rsum_swap.
  - intros j _. rewrite <- Rsum_mult_r, HX.
    apply Rsum_ext. intros p _. now rewrite HX.
Qed.

(** X8: when the mean is as long as the rows and [cov.i()] returns a
    matrix [Vi] with as many rows and columns, [Mahalanobis] returns for
    each row [i] the quadratic form [d^T Vi d] of the row minus the
    centre. *)
Theorem Mahalanobis_value (x : mat) (center : vec) (cov Vi : mat) :
  n_cols x = length center ->
  inv cov = Returns Vi ->
  n_rows Vi = n_cols x -> n_cols Vi = n_cols x ->
  Mahalanobis inv x center cov
  = Returns (map (fun i => quad_form (n_cols x) (at_ Vi) (residual x center i))
               (seq 0 (n_rows x))).
Proof. exact (Mahalanobis_quadratic_forms x center cov Vi). Qed.

End MahalanobisValue.

Section MahalanobisValueWitness.
Local Open Scope R_scope.

Lemma Mahalanobis_value_witness :
  Mahalanobis inv_diagonal (mat_of_rows [[3]; [5]]) [1] (mat_of_rows [[4]])
  = Returns (map (fun i => quad_form 1 (at_ (mkMat 1 1
                              (fun i j => if (i =? j)%nat
                                          then / at_ (mat_of_rows [[4]]) i i
                                          else 0)))
                             (residual (mat_of_rows [[3]; [5]]) [1] i))
               (seq 0 2)).
Proof.
  apply (Mahalanobis_value inv_diagonal (mat_of_rows [[3]; [5]]) [1]
           (mat_of_rows [[4]])); reflexivity.
Defined.

End MahalanobisValueWitness.

(** ** The two forms side by side *)

Section Inverses.
Local Open Scope R_scope.

(** A right inverse is the inverse. *)
Lemma inverse_unique (k : nat) (A W Vi : nat -> nat -> R) :
  is_inverse k A W ->
  (forall i j, (i < k)%nat -> (j < k)%nat ->
     Rsum k (fun p => A i p * Vi p j) = if (i =? j)%nat then 1 else 0) ->
  forall i j, (i < k)%nat -> (j < k)%nat -> Vi i j = W i j.
Proof.
  intros HW HVi i j Hi Hj.
  rewrite <- (Rsum_delta_l k i (fun p => Vi p j) Hi).
  rewrite <- (Rsum_delta_r k j (fun q => W i q) Hj).
  rewrite (Rsum_ext k _ (fun p => Rsum k (fun q => W i q * A q p) * Vi p j)).
  - etransitivity; [exact (Rsum_assoc k W A Vi i j)|].
    apply Rsum_ext. intros q Hq. now rewrite HVi by assumption.
  - intros p Hp. now rewrite (proj2 (HW i p Hi Hp)).
Qed.

Lemma quad_form_ext (k : nat) (A B : nat -> nat -> R) (v : nat -> R) :
  (forall i j, (i < k)%nat -> (j < k)%nat -> A i j = B i j) ->
  quad_form k A v = quad_form k B v.
Proof.
  intros HAB. unfold quad_form.
  apply Rsum_ext. intros i Hi. apply Rsum_ext. intros j Hj.
  now rewrite HAB by assumption.
Qed.

End Inverses.

Section SideBySide.
Local Open Scope R_scope.

Variable inv : mat -> outcome mat.

(** X9: for a call with matching sizes and a symmetric positive definite
    covariance, if [cov.i()] returns a right inverse of the covariance,
    then the log-density of the whitening form is, row by row,
    [constants - 0.5 * distval - sum_j log (U j j)] for the [distval]
    that [Mahalanobis] returns and the Cholesky factor [U] of the
    covariance (upper triangular, positive diagonal, [U^T U = sigma]):
    the two forms compute the same quadratic term. *)
Theorem dmvnrm_arma_in_terms_of_Mahalanobis (x : mat) (mean : vec)
    (sigma Vi : mat) :
  valid_dims x mean sigma -> symmetric sigma -> positive_definite sigma ->
  inv sigma = Returns Vi ->
  n_rows Vi = n_rows sigma -> n_cols Vi = n_rows sigma ->
  (forall i j, (i < n_rows sigma)%nat -> (j < n_rows sigma)%nat ->
     Rsum (n_rows sigma) (fun p => at_ sigma i p * at_ Vi p j)
     = if (i =? j)%nat then 1 else 0) ->
  exists U distval,
    (forall i j, (i < n_rows sigma)%nat -> (j < n_rows sigma)%nat ->
       Rsum (n_rows sigma) (fun p => U p i * U p j) = at_ sigma i j)
    /\ (forall i, (i < n_rows sigma)%nat -> 0 < U i i)
    /\ (forall i j, (j < i)%nat -> U i j = 0)
    /\ Mahalanobis inv x mean sigma = Returns distval
    /\ dmvnrm_arma x mean sigma true
       = Returns (map (fun dv =>
                         constants (Z.of_nat (n_cols x)) - 0.5 * dv
                         + - Rsum (n_rows sigma) (fun j => ln (U j j)))
                    distval).
Proof.
  intros Hdims Hsym Hpd Hinv Hr Hc HVi.
  destruct (dmvnrm_arma_log_densities x mean sigma Hdims Hsym Hpd)
    as (U & W & HU & _ & HW & Hval).
  destruct (chol_rec_factor _ _ _ Hsym HU) as (Hfac & Hdiag & Hlow).
  destruct Hdims as (Hmean & Hsr & Hsc).
  exists U. eexists. repeat split; try assumption.
  - apply (Mahalanobis_quadratic_forms inv x mean sigma Vi); congruence.
  - rewrite Hval, map_map. f_equal. apply map_ext. intros i.
    rewrite <- Hsr.
    rewrite (quad_form_ext _ (at_ Vi) W); [reflexivity|].
    now apply (inverse_unique _ (at_ sigma)).
Qed.

End SideBySide.

Section SideBySideWitness.
Local Open Scope R_scope.

Lemma dmvnrm_arma_in_terms_of_Mahalanobis_witness :
  exists U distval,
    (forall i j, (i < 2)%nat -> (j < 2)%nat ->
       Rsum 2 (fun p => U p i * U p j) = at_ (mat_of_rows [[1; 0]; [0; 1]]) i j)
    /\ (forall i, (i < 2)%nat -> 0 < U i i)
    /\ (forall i j, (j < i)%nat -> U i j = 0)
    /\ Mahalanobis inv_diagonal (mat_of_rows [[3; 4]]) [1; 2]
         (mat_of_rows [[1; 0]; [0; 1]]) = Returns distval
    /\ dmvnrm_arma (mat_of_rows [[3; 4]]) [1; 2] (mat_of_rows [[1; 0]; [0; 1]]) true
       = Returns (map (fun dv =>
                         constants 2 - 0.5 * dv + - Rsum 2 (fun j => ln (U j j)))
                    distval).
Proof.
  apply (dmvnrm_arma_in_terms_of_Mahalanobis inv_diagonal
           (mat_of_rows [[3; 4]]) [1; 2] (mat_of_rows [[1; 0]; [0; 1]])
           (mkMat 2 2 (fun i j => if (i =? j)%nat
                                  then / at_ (mat_of_rows [[1; 0]; [0; 1]]) i i
                                  else 0))).
  - repeat split; reflexivity.
  - intros i j Hi Hj. cbn in Hi, Hj.
    destruct i as [|[|i]]; destruct j as [|[|j]]; try lia; reflexivity.
  - split; [reflexivity|].
    intros v (i & Hi & Hv). cbn in Hi. unfold quad_form. cbn.
    pose proof (Rle_0_sqr (v 0%nat)) as H0.
    pose proof (Rle_0_sqr (v 1%nat)) as H1.
    apply Rsqr_pos_lt in Hv. unfold Rsqr in *.
    destruct i as [|[|i]]; [lra | lra | lia].
  - reflexivity.
  - reflexivity.
  - reflexivity.
  - intros i j Hi Hj. cbn in Hi, Hj.
    destruct i as [|[|i]]; destruct j as [|[|j]]; try lia; cbn; lra.
Defined.

End SideBySideWitness.

(** ** The unprotected sum of [armasum2] *)

Section RacySum.
Local Open Scope R_scope.

Lemma sum_nth (x : vec) : Arma.sum x = Rsum (length x) (fun i => nth i x 0).
Proof.
  induction x as [|a x IH]; cbn; [reflexivity|].
  unfold Arma.sum in IH. now rewrite IH.
Qed.

(** Iterations [a, a + n) run one after the other add their elements
    to [res] and leave the registers of the earlier iterations alone. *)
Lemma racy_loop_run (x : vec) (n a : nat) (res : R) (reg : nat -> R)
    (rest : list access) :
  exists reg',
    (forall j, (j < a)%nat -> reg' j = reg j)
    /\ racy_loop (flat_map (fun k => [LoadRes k; StoreRes k]) (seq a n) ++ rest)
         x res reg
       = racy_loop rest x (res + Rsum n (fun i => nth (a + i) x 0)) reg'.
Proof.
  revert a res reg. induction n as [|n IH]; intros a res reg.
  - exists reg. split; [reflexivity|]. cbn. now rewrite Rplus_0_r.
  - cbn [seq flat_map app racy_loop].
    rewrite Nat.eqb_refl.
    destruct (IH (S a) (res + nth a x 0)
                (fun k' => if (k' =? a)%nat then res else reg k'))
      as (reg' & Hreg & Hrun).
    exists reg'. split.
    + intros j Hj. rewrite Hreg by lia.
      destruct (Nat.eqb_spec j a); [lia | reflexivity].
    + rewrite Hrun. f_equal. cbn [Rsum]. rewrite Nat.add_0_r, Rplus_assoc.
      do 2 f_equal. apply Rsum_ext. intros i _. f_equal. lia.
Qed.

(** X10: when one thread runs the whole loop, [armasum2] returns the sum
    of the vector, which is what [armasum] returns, whatever the number
    of cores asked for. *)
Theorem armasum2_one_thread (x : vec) (cores : Z) (rt : omp_runtime) :
  fst (armasum2 (one_thread_trace (length x)) x cores rt) = armasum x.
Proof.
  unfold armasum2, one_thread_trace, armasum. cbn [fst].
  destruct (racy_loop_run x (length x) 0 0 (fun _ => 0) []) as (reg' & _ & Hrun).
  rewrite app_nil_r in Hrun. rewrite Hrun. cbn [racy_loop].
  rewrite sum_nth, Rplus_0_l. reflexivity.
Qed.

Lemma filter_iterations (p : nat -> bool) (l : list nat) :
  List.filter (fun a => p (access_iteration a))
    (flat_map (fun k => [LoadRes k; StoreRes k]) l)
  = flat_map (fun k => [LoadRes k; StoreRes k]) (List.filter p l).
Proof.
  induction l as [|k l IH]; [reflexivity|].
  cbn [flat_map app List.filter access_iteration]. rewrite IH.
  destruct (p k); reflexivity.
Qed.

Lemma filter_all {A : Type} (p : A -> bool) (l : list A) :
  Forall (fun a => p a = true) l -> List.filter p l = l.
Proof.
  induction 1 as [|a l Ha _ IH]; cbn; [reflexivity|]. now rewrite Ha, IH.
Qed.

Lemma filter_none {A : Type} (p : A -> bool) (l : list A) :
  Forall (fun a => p a = false) l -> List.filter p l = [].
Proof.
  induction 1 as [|a l Ha _ IH]; cbn; [reflexivity|]. now rewrite Ha, IH.
Qed.

Lemma iterations_below (a n K : nat) :
  (a + n <= K)%nat ->
  Forall (fun e => (access_iteration e < K)%nat)
    (flat_map (fun k => [LoadRes k; StoreRes k]) (seq a n)).
Proof.
  revert a. induction n as [|n IH]; intros a Ha; cbn; [constructor|].
  do 2 (constructor; [cbn; lia|]). apply IH. lia.
Qed.

(** A team of one thread has one execution, the loop in program order. *)
Lemma team_of_one_execution (owner : nat -> nat) (K : nat) (tr : list access) :
  static_partition 1 K owner -> team_execution owner K tr ->
  tr = one_thread_trace K.
Proof.
  intros [Hteam _] [Hbelow Hproj].
  assert (Hown : forall k, (k < K)%nat -> (owner k =? 0)%nat = true).
  { intros k Hk. apply Nat.eqb_eq. specialize (Hteam k Hk). lia. }
  specialize (Hproj 0%nat). unfold thread_trace in Hproj.
  rewrite filter_all in Hproj.
  - rewrite Hproj. unfold one_thread_trace. f_equal. apply filter_all.
    apply Forall_forall. intros k Hk. apply elem_of_seq in Hk. apply Hown. lia.
  - eapply Forall_impl; [exact Hbelow|]. intros a Ha. now apply Hown.
Qed.

(** So with one thread [armasum2] returns the sum on every execution. *)
Lemma armasum2_team_of_one (owner : nat -> nat) (tr : list access) (x : vec)
    (cores : Z) (rt : omp_runtime) :
  (cores <= 1)%Z ->
  static_partition (nthreads_var (omp_set_num_threads cores rt)) (length x) owner ->
  team_execution owner (length x) tr ->
  fst (armasum2 tr x cores rt) = armasum x.
Proof.
  intros Hcores Hpart Hexec.
  assert (Hteam : nthreads_var (omp_set_num_threads cores rt) = 1%Z).
  { unfold omp_set_num_threads. cbn. destruct (Z.ltb_spec 0 cores); lia. }
  rewrite Hteam in Hpart.
  rewrite (team_of_one_execution owner (length x) tr Hpart Hexec).
  unfold armasum2, one_thread_trace, armasum. cbn [fst].
  destruct (racy_loop_run x (length x) 0 0 (fun _ => 0) []) as (reg' & _ & Hrun).
  rewrite app_nil_r in Hrun. rewrite Hrun. cbn [racy_loop].
  rewrite sum_nth, Rplus_0_l. reflexivity.
Qed.

Lemma lost_update_trace_execution (owner : nat -> nat) (c K : nat) :
  (0 < c)%nat -> (c <= K)%nat ->
  (forall k, (k < K)%nat -> owner k = owner 0%nat <-> (k < c)%nat) ->
  team_execution owner K (lost_update_trace c K).
Proof.
  intros Hc HcK Hown. unfold team_execution, lost_update_trace. split.
  - constructor; [cbn; lia|]. apply Forall_app. split.
    + apply iterations_below. lia.
    + constructor; [cbn; lia|]. apply iterations_below. lia.
  - intros t. unfold thread_trace.
    replace (seq 0 K) with (seq 0 c ++ seq c (K - c))
      by (rewrite <- seq_app; f_equal; lia).
    rewrite List.filter_app, flat_map_app.
    cbn [List.filter access_iteration].
    rewrite List.filter_app. cbn [List.filter access_iteration].
    rewrite !(filter_iterations (fun k => (owner k =? t)%nat)).
    destruct (Nat.eqb_spec (owner 0%nat) t) as [Ht|Ht].
    + rewrite (filter_none _ (seq c (K - c))).
      2:{ apply Forall_forall. intros k Hk. apply elem_of_seq in Hk.
          apply Nat.eqb_neq. intros Hk'. rewrite <- Ht in Hk'.
          apply Hown in Hk'; lia. }
      cbn [flat_map app]. rewrite app_nil_r.
      destruct c as [|c]; [lia|]. cbn [seq List.filter].
      rewrite Ht, Nat.eqb_refl. cbn [flat_map app].
      rewrite Nat.sub_succ, Nat.sub_0_r. reflexivity.
    + rewrite (filter_none _ (seq 1 (c - 1))).
      2:{ apply Forall_forall. intros k Hk. apply elem_of_seq in Hk.
          apply Nat.eqb_neq. intros Hk'. apply Ht. rewrite <- Hk'.
          symmetry. apply Hown; lia. }
      rewrite (filter_none _ (seq 0 c)).
      2:{ apply Forall_forall. intros k Hk. apply elem_of_seq in Hk.
          apply Nat.eqb_neq. intros Hk'. apply Ht. rewrite <- Hk'.
          symmetry. apply Hown; lia. }
      cbn [flat_map app]. now rewrite app_nil_r.
Qed.

Lemma sum_app (a b : vec) : Arma.sum (a ++ b) = Arma.sum a + Arma.sum b.
Proof.
  unfold Arma.sum. induction a as [|r a IH]; cbn; [lra|]. rewrite IH. lra.
Qed.

Lemma lost_update_trace_value (first others : vec) (cores : Z)
    (rt : omp_runtime) :
  first <> [] ->
  fst (armasum2 (lost_update_trace (length first) (length (first ++ others)))
         (first ++ others) cores rt)
  = armasum first.
Proof.
  intros Hfirst. destruct first as [|a first]; [congruence|].
  unfold armasum2, lost_update_trace. cbn [fst racy_loop length].
  rewrite Nat.sub_succ, Nat.sub_0_r.
  destruct (racy_loop_run ((a :: first) ++ others)
              (length ((a :: first) ++ others) - S (length first))
              (S (length first)) 0
              (fun k' => if (k' =? 0)%nat then 0 else 0)
              (StoreRes 0%nat
               :: flat_map (fun k => [LoadRes k; StoreRes k])
                    (seq 1 (length first))))
    as (reg' & Hreg & Hrun).
  cbn [length] in Hrun. rewrite Hrun. cbn [racy_loop]. rewrite Hreg by lia.
  cbn [Nat.eqb].
  destruct (racy_loop_run ((a :: first) ++ others) (length first) 1
              (0 + nth 0 ((a :: first) ++ others) 0) reg' [])
    as (reg'' & _ & Hrun').
  rewrite app_nil_r in Hrun'. rewrite Hrun'. cbn [racy_loop].
  unfold armasum. rewrite (sum_nth (a :: first)). cbn [length Rsum nth app].
  rewrite Rplus_0_l. f_equal. apply Rsum_ext. intros i Hi.
  cbn [Nat.add nth]. now rewrite app_nth1 by exact Hi.
Qed.

(** X11: the loop of [armasum2] loses updates as soon as two threads
    share it.  Let the static schedule give the thread of iteration 0
    the first chunk [first] of the vector and other threads of the team
    the rest, [others], which is not empty.  Then the team has at least
    two threads ([cores >= 2]), and there is an execution, the accesses
    of every thread in program order, after which [armasum2] returns the
    sum of [first] alone: the additions of the other threads are lost,
    and the value is not the sum that [armasum] returns unless [others]
    adds up to zero. *)
Theorem armasum2_can_lose_updates (first others : vec) (owner : nat -> nat)
    (cores : Z) (rt : omp_runtime) :
  first <> [] -> others <> [] ->
  static_partition (nthreads_var (omp_set_num_threads cores rt))
    (length (first ++ others)) owner ->
  (forall k, (k < length (first ++ others))%nat ->
     owner k = owner 0%nat <-> (k < length first)%nat) ->
  (2 <= cores)%Z
  /\ team_execution owner (length (first ++ others))
       (lost_update_trace (length first) (length (first ++ others)))
  /\ fst (armasum2 (lost_update_trace (length first) (length (first ++ others)))
            (first ++ others) cores rt) = armasum first
  /\ (armasum others <> 0 ->
      fst (armasum2 (lost_update_trace (length first) (length (first ++ others)))
             (first ++ others) cores rt) <> armasum (first ++ others)).
Proof.
  intros Hfirst Hothers [Hteam _] Hown.
  assert (Hlen : (0 < length first < length (first ++ others))%nat).
  { rewrite length_app.
    destruct first; [congruence|]. destruct others; [congruence|]. cbn. lia. }
  split.
  { pose proof (Hteam 0%nat ltac:(lia)) as H0.
    pose proof (Hteam (length first) ltac:(lia)) as H1.
    assert (Hne : owner (length first) <> owner 0%nat).
    { intros Heq. apply Hown in Heq; lia. }
    unfold omp_set_num_threads in H0, H1. cbn in H0, H1.
    destruct (Z.ltb_spec 0 cores); lia. }
  split; [apply lost_update_trace_execution; [lia | lia | exact Hown]|].
  rewrite lost_update_trace_value by exact Hfirst.
  split; [reflexivity|].
  intros Hne. unfold armasum in *. rewrite sum_app. lra.
Qed.

Lemma armasum2_can_lose_updates_witness :
  (2 <= 2)%Z
  /\ team_execution (fun k => if (k <? 2)%nat then 0%nat else 1%nat)
       (length ([1; 2] ++ [3]))
       (lost_update_trace (length [1; 2]) (length ([1; 2] ++ [3])))
  /\ fst (armasum2 (lost_update_trace (length [1; 2]) (length ([1; 2] ++ [3])))
            ([1; 2] ++ [3]) 2 {| nthreads_var := 1 |}) = armasum [1; 2]
  /\ (armasum [3] <> 0 ->
      fst (armasum2 (lost_update_trace (length [1; 2]) (length ([1; 2] ++ [3])))
             ([1; 2] ++ [3]) 2 {| nthreads_var := 1 |})
      <> armasum ([1; 2] ++ [3])).
Proof.
  apply (armasum2_can_lose_updates [1; 2] [3]
           (fun k => if (k <? 2)%nat then 0%nat else 1%nat)
           2 {| nthreads_var := 1 |}).
  - discriminate.
  - discriminate.
  - split.
    + intros k Hk. cbn in Hk. destruct k as [|[|[|k]]]; cbn; lia.
    + intros k k' Hkk Hk'. cbn in Hk'.
      destruct k' as [|[|[|k']]]; destruct k as [|[|[|k]]]; cbn; lia.
  - intros k Hk. cbn in Hk. destruct k as [|[|[|k]]]; cbn; lia.
Defined.

End RacySum.

(** ** Sums of small integers in binary64 *)

Section SmallIntegers.

Lemma add_exact_table_1024 : add_exact_table 1024 = true.
Proof. vm_compute. reflexivity. Qed.

Lemma add_exact_table_sound (n i j : nat) :
  add_exact_table n = true ->
  i + j <= n -> PrimFloat.add (F i) (F j) = F (i + j).
Proof.
  intros Htab Hij.
  unfold add_exact_table in Htab. cbv zeta in Htab.
  rewrite forallb_forall in Htab.
  assert (Hi : In (Z.of_nat i) (map Z.of_nat (seq 0 (S n))))
    by (apply in_map, in_seq; lia).
  assert (Hj : In (Z.of_nat j) (map Z.of_nat (seq 0 (S n))))
    by (apply in_map, in_seq; lia).
  specialize (Htab _ Hi). rewrite forallb_forall in Htab.
  specialize (Htab _ Hj).
  destruct (Z.leb_spec (Z.of_nat i + Z.of_nat j) (Z.of_nat n)) as [_|Hgt];
    [|lia].
  apply FloatAxioms.Leibniz.eqb_spec in Htab.
  unfold F. rewrite Nat2Z.inj_add. exact Htab.
Qed.

Lemma float_add_exact_1024 (i j : nat) :
  i + j <= 1024 -> PrimFloat.add (F i) (F j) = F (i + j).
Proof. exact (add_exact_table_sound 1024 i j add_exact_table_1024). Qed.

Lemma float_accumulate_1024 (l : list nat) (v : nat) :
  v + list_sum l <= 1024 ->
  accumulate (map F l) (F v) = F (v + list_sum l).
Proof.
  unfold accumulate. revert v.
  induction l as [|a l IH]; intros v Hv; cbn [map fold_left].
  - cbn. now rewrite Nat.add_0_r.
  - change (list_sum (a :: l)) with (a + list_sum l) in *.
    change (@add PrimFloat.float Scalar_float) with PrimFloat.add in *.
    rewrite float_add_exact_1024 by lia. rewrite IH by lia.
    f_equal. lia.
Qed.

Lemma float_parallelReduce_1024 (l : list nat) (p : plan) (b e : nat)
    (w : Sum PrimFloat.float) (v : nat) :
  covers p b e ->
  input w = map F l -> value w = F v ->
  v + list_sum (range_of l b e) <= 1024 ->
  parallelReduce p w = mkSum (map F l) (F (v + list_sum (range_of l b e))).
Proof.
  revert b e w v.
  induction p as [b' e'|p IHp q IHq|p IHp q IHq];
    intros b e w v Hcov Hin Hval Hle; cbn [covers] in Hcov.
  - destruct Hcov as (-> & -> & _). cbn [parallelReduce]. unfold Sum_call.
    rewrite Hin, Hval, range_of_map.
    change (@zero PrimFloat.float Scalar_float) with (F 0).
    rewrite float_accumulate_1024 by (cbn; lia). cbn [Nat.add].
    change (@add PrimFloat.float Scalar_float) with PrimFloat.add.
    rewrite float_add_exact_1024 by lia. reflexivity.
  - destruct Hcov as (m & Hp & Hq). cbn [parallelReduce].
    pose proof (covers_le _ _ _ Hp) as Hbm.
    pose proof (covers_le _ _ _ Hq) as Hme.
    rewrite (range_of_split l b m e), list_sum_app in * by assumption.
    rewrite (IHp b m w v) by (assumption || lia).
    rewrite (IHq m e _ (v + list_sum (range_of l b m)))
      by (assumption || reflexivity || lia).
    do 2 f_equal. lia.
  - destruct Hcov as (m & Hp & Hq). cbn [parallelReduce].
    pose proof (covers_le _ _ _ Hp) as Hbm.
    pose proof (covers_le _ _ _ Hq) as Hme.
    rewrite (range_of_split l b m e), list_sum_app in * by assumption.
    rewrite (IHp b m w v) by (assumption || lia).
    rewrite (IHq m e (Sum_split w) 0)
      by (assumption || reflexivity || (cbn; lia)).
    unfold join. cbn [input value Nat.add].
    change (@add PrimFloat.float Scalar_float) with PrimFloat.add.
    rewrite float_add_exact_1024 by lia.
    do 2 f_equal. lia.
Qed.

(** X12: in binary64, for every vector of non-negative integers whose
    total is at most 1024 and every plan that tiles the whole range, the
    parallel sum is exactly the total, and so is the serial sum: on such
    vectors [identical(vectorSum(v), parallelVectorSum(v))] holds however
    the work is split and joined. *)
Theorem parallelVectorSum_small_integers (l : list nat) (p : plan) :
  list_sum l <= 1024 -> covers p 0 (length l) ->
  parallelVectorSum p (map F l) = F (list_sum l)
  /\ vectorSum (map F l) = F (list_sum l).
Proof.
  intros Hsum Hcov. split.
  - unfold parallelVectorSum.
    rewrite (float_parallelReduce_1024 l p 0 (length l) _ 0 Hcov);
      rewrite ?range_of_all; (reflexivity || (cbn; lia)).
  - unfold vectorSum.
    change (@zero PrimFloat.float Scalar_float) with (F 0).
    now rewrite float_accumulate_1024 by (cbn; lia).
Qed.

Lemma parallelVectorSum_small_integers_witness :
  parallelVectorSum (Fork (Run 0 1) (Then (Run 1 2) (Run 2 3)))
    (map F [100; 200; 300]) = F (list_sum [100; 200; 300])
  /\ vectorSum (map F [100; 200; 300]) = F (list_sum [100; 200; 300]).
Proof.
  apply (parallelVectorSum_small_integers [100; 200; 300]).
  - cbn. lia.
  - cbn. exists 1. split; [|exists 2]; repeat split; lia.
Defined.

End SmallIntegers.

Section PlanDependence.
Import PrimFloat.

(** X13: in binary64 the parallel sum depends on the plan.  On the vector
    9007199254740992, 1, 1 one worker alone returns 9007199254740992, as
    the serial sum does, and a worker split off after the first element
    makes it 9007199254740994: the two are not [identical]. *)
Theorem parallelVectorSum_depends_on_plan :
  let x := [9007199254740992; 1; 1]%float in
  covers one_worker 0 (length x)
  /\ covers split_after_first 0 (length x)
  /\ parallelVectorSum one_worker x = vectorSum x
  /\ parallelVectorSum one_worker x = 9007199254740992%float
  /\ parallelVectorSum split_after_first x = 9007199254740994%float
  /\ parallelVectorSum split_after_first x <> vectorSum x.
Proof.
  cbv zeta. repeat split.
  - cbn. lia.
  - cbn. exists 1%nat. repeat split; lia.
  - intros H. apply FloatAxioms.Leibniz.eqb_spec in H.
    vm_compute in H. discriminate.
Qed.

End PlanDependence.

(** ** The mode of the density *)

Section Mode.
Local Open Scope R_scope.

Lemma sum_squares_nonneg (g : nat -> R) (l : list nat) :
  0 <= Arma.sum (map (fun r => g r * g r) l).
Proof.
  induction l as [|a l IH]; cbn; [lra|].
  unfold Arma.sum in IH. pose proof (Rle_0_sqr (g a)) as H. unfold Rsqr in H. lra.
Qed.

Lemma log_density_le (x : mat) (mean : vec) (rooti : mat) (cst rsum : R) (i : nat) :
  log_density x mean rooti cst rsum i <= cst + rsum.
Proof.
  unfold log_density. rewrite sum_schur_map.
  pose proof (sum_squares_nonneg
                (fun r => dot (n_cols rooti) (at_ rooti r)
                            (zip_with Rminus (row x i) mean))
                (seq 0 (n_rows rooti))) as H.
  lra.
Qed.

Lemma nth_zip_minus_self (m : vec) (j : nat) : nth j (zip_with Rminus m m) 0 = 0.
Proof.
  revert j. induction m as [|a m IH]; intros [|j]; cbn; try reflexivity.
  - lra.
  - apply IH.
Qed.

Lemma log_density_at_mean (x : mat) (mean : vec) (rooti : mat) (cst rsum : R)
    (i : nat) :
  row x i = mean -> log_density x mean rooti cst rsum i = cst + rsum.
Proof.
  intros Hrow. unfold log_density. rewrite sum_schur_map, Hrow.
  rewrite (map_ext _ (fun _ => 0)).
  - assert (H0 : forall l : list nat, Arma.sum (map (fun _ => 0) l) = 0).
    { induction l as [|a l IH]; cbn; [reflexivity|].
      unfold Arma.sum in IH. rewrite IH. lra. }
    rewrite H0. lra.
  - intros r. unfold dot. rewrite Rsum_zero; [ring|].
    intros j _. rewrite nth_zip_minus_self. ring.
Qed.

Lemma row_of_single_row (m : vec) : row (mat_of_rows [m]) 0 = m.
Proof.
  unfold row, mat_of_rows. cbn [n_cols at_ hd nth].
  induction m as [|a m IH]; cbn; [reflexivity|].
  f_equal. rewrite <- seq_shift, map_map. exact IH.
Qed.

(** The log-densities of a call after the whitening factor is known. *)
Lemma dmvnrm_arma_after_whitening (x : mat) (mean : vec) (sigma rooti : mat) :
  n_cols x = length mean -> n_rows sigma = n_cols x ->
  whitening sigma = Returns rooti ->
  dmvnrm_arma x mean sigma true
  = Returns (map (log_density x mean rooti (constants (Z.of_nat (n_cols x)))
                    (rootisum rooti)) (seq 0 (n_rows x))).
Proof.
  intros Hmean Hsr Hw. unfold dmvnrm_arma. rewrite Hw. cbn [mbind outcome_bind].
  apply whitening_size in Hw as [_ Hc].
  rewrite for_loop_writes by congruence. cbn [mbind outcome_bind finish].
  now rewrite (write_all_permutation _ _ (n_rows x))
    by auto using length_replicate.
Qed.

(** X14: on a call with matching sizes and a symmetric positive definite
    covariance, no row gets a log-density above the one the evaluator
    returns for the mean itself, and a row equal to the mean gets exactly
    that one. *)
Theorem dmvnrm_arma_mode_at_mean (x : mat) (mean : vec) (sigma : mat) :
  valid_dims x mean sigma -> symmetric sigma -> positive_definite sigma ->
  exists out top,
    dmvnrm_arma x mean sigma true = Returns out
    /\ dmvnrm_arma (mat_of_rows [mean]) mean sigma true = Returns [top]
    /\ length out = n_rows x
    /\ forall i, (i < n_rows x)%nat ->
         nth i out 0 <= top /\ (row x i = mean -> nth i out 0 = top).
Proof.
  intros (Hmean & Hsr & Hsc) Hsym Hpd.
  destruct (whitening_returns sigma (proj1 Hpd) Hsym Hpd) as [rooti Hw].
  rewrite (dmvnrm_arma_after_whitening x mean sigma rooti Hmean Hsr Hw).
  rewrite (dmvnrm_arma_after_whitening (mat_of_rows [mean]) mean sigma rooti)
    by (cbn; congruence).
  cbn [n_rows n_cols mat_of_rows length hd seq map].
  rewrite (log_density_at_mean (mat_of_rows [mean]))
    by apply row_of_single_row.
  rewrite <- Hmean.
  eexists. eexists. split; [reflexivity|]. split; [reflexivity|].
  split; [now rewrite length_map, length_seq|].
  intros i Hi.
  rewrite (nth_indep _ 0 (log_density x mean rooti
                            (constants (Z.of_nat (n_cols x))) (rootisum rooti) 0))
    by (rewrite length_map, length_seq; exact Hi).
  rewrite map_nth, seq_nth by exact Hi. cbn [Nat.add].
  split; [apply log_density_le | apply log_density_at_mean].
Qed.

Lemma dmvnrm_arma_mode_at_mean_witness :
  exists out top,
    dmvnrm_arma (mat_of_rows [[3; 4]; [1; 2]]) [1; 2]
      (mat_of_rows [[1; 0]; [0; 1]]) true = Returns out
    /\ dmvnrm_arma (mat_of_rows [[1; 2]]) [1; 2]
         (mat_of_rows [[1; 0]; [0; 1]]) true = Returns [top]
    /\ length out = 2%nat
    /\ forall i, (i < 2)%nat ->
         nth i out 0 <= top
         /\ (row (mat_of_rows [[3; 4]; [1; 2]]) i = [1; 2] -> nth i out 0 = top).
Proof.
  apply (dmvnrm_arma_mode_at_mean (mat_of_rows [[3; 4]; [1; 2]]) [1; 2]
           (mat_of_rows [[1; 0]; [0; 1]])).
  - repeat split; reflexivity.
  - intros i j Hi Hj. cbn in Hi, Hj.
    destruct i as [|[|i]]; destruct j as [|[|j]]; try lia; reflexivity.
  - split; [reflexivity|].
    intros v (i & Hi & Hv). cbn in Hi. unfold quad_form. cbn.
    pose proof (Rle_0_sqr (v 0%nat)) as H0.
    pose proof (Rle_0_sqr (v 1%nat)) as H1.
    apply Rsqr_pos_lt in Hv. unfold Rsqr in *.
    destruct i as [|[|i]]; [lra | lra | lia].
Defined.

End Mode.
